(** * easy-pg: a shallow embedding of the PostgreSQL convenience layer

    The development follows the Go package [postgres]:
    - [client.go]     : [Config], [Client], [NewClient], [NewClientFromEnv],
                        [Close], [Ping], [ExecTx], [getEnvInt], [parseInt];
    - the query file  : [QueryRow], [QueryRows], [Exec], [ExecBatch];
    - the migration file : [Migration], [MigrationManager], [Migrate],
                        [ApplyMigration], [RollbackLastMigration],
                        [LoadMigrationsFromPath].

    The pgx driver and the database server are external collaborators.  They
    are modelled by a small explicit world: a committed store, the working
    copy of the open transaction, a plan of injected failures (one slot per
    driver call) and a trace of the driver calls that were attempted.  Calls
    to the logger are a side channel and are left out. *)

From Stdlib Require Import ZArith List String Ascii Lia Sorted Permutation.
From stdpp Require Import base option list gmap strings pretty sorting.

Local Open Scope string_scope.
Local Open Scope Z_scope.
Local Open Scope list_scope.

(** ** Go values *)

(** Go's [int] and [int64] are 64-bit two's complement, [int32] is 32-bit. *)
Definition wrap64 (z : Z) : Z := (z + 2 ^ 63) mod 2 ^ 64 - 2 ^ 63.
Definition wrap32 (z : Z) : Z := (z + 2 ^ 31) mod 2 ^ 32 - 2 ^ 31.

Definition min_int : Z := - 2 ^ 63.
Definition max_int : Z := 2 ^ 63 - 1.

(** A Go [error] value.  [New] stands for a value whose chain ends here
    ([errors.New], a driver error, or [fmt.Errorf] without the wrapping
    verb); [Wrap] is [fmt.Errorf] with the wrapping verb: it has a text of
    its own and keeps the cause. *)
Inductive error : Type :=
| New (msg : string)
| Wrap (msg : string) (cause : error).

(** [err.Error()] *)
Definition Error (e : error) : string :=
  match e with
  | New m => m
  | Wrap m _ => m
  end.

(** [err.Unwrap()] *)
Definition Unwrap (e : error) : option error :=
  match e with
  | New _ => None
  | Wrap _ c => Some c
  end.

(** [errors.Is(e, target)] for comparable errors: walk the chain. *)
Fixpoint Is (e target : error) {struct e} : Prop :=
  e = target \/
  match e with
  | New _ => False
  | Wrap _ c => Is c target
  end.

(** [fmt.Errorf(prefix + "%w", err)] *)
Definition Errorf_w (prefix : string) (err : error) : error :=
  Wrap (prefix +:+ Error err) err.

(** The verb for decimal integers. *)
Definition fmt_d (z : Z) : string := pretty z.

(** An argument of a statement ([any]). *)
Inductive Value : Type :=
| VInt (z : Z)
| VStr (s : string)
| VTime (t : Z).

(** ** client.go: reading integers from the environment *)

Module Env.

(** [range s] yields runes (signed 32-bit).  A byte below 0x80 is its own
    rune; every other byte starts a sequence whose rune is at least 0x80
    (or the replacement rune 0xFFFD), and such a rune takes the error
    branch at once, like the byte itself does here. *)
Definition rune_of (c : ascii) : Z := Z.of_N (N_of_ascii c).

(** The loop of [parseInt], with the accumulator [n]. *)
Fixpoint parseInt_loop (s : string) (n : Z) : option Z :=
  match s with
  | EmptyString => Some n
  | String c rest =>
      let ch := rune_of c - rune_of "0"%char in
      if (9 <? ch)%Z then None
      else parseInt_loop rest (wrap64 (n * 10 + ch))
  end.

Definition parseInt (s : string) : Z * option error :=
  match parseInt_loop s 0 with
  | Some n => (n, None)
  | None => (0, Some (New ("invalid number: " +:+ s)))
  end.

(** [os.LookupEnv] reads a finite map of variables. *)
Definition getEnvString (env : gmap string string) (key fallback : string) : string :=
  match env !! key with
  | Some value => value
  | None => fallback
  end.

Definition getEnvInt (env : gmap string string) (key : string) (fallback : Z) : Z :=
  match env !! key with
  | Some value =>
      match parseInt value with
      | (intValue, None) => intValue
      | (_, Some _) => fallback
      end
  | None => fallback
  end.

End Env.

(** ** client.go: configuration *)

Record Config : Type := mkConfig {
  Host : string;
  Port : Z;
  User : string;
  Password : string;
  DBName : string;
  SSLMode : string;
  Timeout : Z;          (* time.Duration, nanoseconds *)
  MaxConns : Z          (* int32 *)
}.

Definition Second : Z := 1000000000.

Definition with_Port (port : Z) (c : Config) : Config :=
  mkConfig (Host c) port (User c) (Password c) (DBName c) (SSLMode c) (Timeout c) (MaxConns c).
Definition with_SSLMode (mode : string) (c : Config) : Config :=
  mkConfig (Host c) (Port c) (User c) (Password c) (DBName c) mode (Timeout c) (MaxConns c).
Definition with_Timeout (timeout : Z) (c : Config) : Config :=
  mkConfig (Host c) (Port c) (User c) (Password c) (DBName c) (SSLMode c) timeout (MaxConns c).
Definition with_MaxConns (conns : Z) (c : Config) : Config :=
  mkConfig (Host c) (Port c) (User c) (Password c) (DBName c) (SSLMode c) (Timeout c) conns.

(** [NewClient] fills the zero values of the configuration. *)
Definition fill_defaults (cfg : Config) : Config :=
  let cfg := if (Port cfg =? 0)%Z then with_Port 5432 cfg else cfg in
  let cfg := if String.eqb (SSLMode cfg) EmptyString then with_SSLMode "disable" cfg else cfg in
  let cfg := if (Timeout cfg =? 0)%Z then with_Timeout (5 * Second) cfg else cfg in
  if (MaxConns cfg =? 0)%Z then with_MaxConns 10 cfg else cfg.

(** The configuration literal of [NewClientFromEnv]. *)
Definition env_config (env : gmap string string) : Config :=
  {| Host := Env.getEnvString env "DB_HOST" "localhost";
     Port := Env.getEnvInt env "DB_PORT" 5432;
     User := Env.getEnvString env "DB_USER" "postgres";
     Password := Env.getEnvString env "DB_PASSWORD" "postgres";
     DBName := Env.getEnvString env "DB_NAME" "postgres";
     SSLMode := Env.getEnvString env "DB_SSLMODE" "disable";
     Timeout := wrap64 (Env.getEnvInt env "DB_TIMEOUT" 30 * Second);
     MaxConns := wrap32 (Env.getEnvInt env "DB_MAX_CONNS" 50) |}.

(** ** The database behind the driver *)

(** A row of the ledger table [migrations]. *)
Record Row : Type := mkRow {
  row_version : Z;
  row_description : string;
  row_applied_at : Z
}.

(** The statements that reach the driver.  The fixed SQL texts of the
    package are constructors; [Raw] is SQL text supplied by the caller (a
    migration body, a rollback body, a statement of a batch). *)
Inductive Stmt : Type :=
| CreateMigrationsTable
| SelectApplied
| SelectLast
| InsertMigration (version : Z) (description : string) (applied_at : Z)
| DeleteMigration (version : Z)
| Raw (sql : string) (args : list Value).

(** What the server stores: the ledger ([None] while the table does not
    exist) and the caller's statements that took effect, in order.  Caller
    SQL is taken not to touch the ledger table. *)
Record Store : Type := mkStore {
  ledger : option (list Row);
  schema : list (string * list Value)
}.

Definition ErrNoRows : error := New "no rows in result set".
Definition ErrTxClosed : error := New "tx is closed".
Definition ErrTxCommitRollback : error := New "commit unexpectedly resulted in rollback".
Definition ErrClosedPool : error := New "closed pool".
Definition ErrNoTable : error := New "relation migrations does not exist".
Definition ErrUnique : error := New "duplicate key value violates unique constraint".
Definition ErrAborted : error := New "current transaction is aborted".

Definition versions (l : list Row) : list Z := map row_version l.

Definition has_version (v : Z) (l : list Row) : bool :=
  existsb (fun r => Z.eqb (row_version r) v) l.

(** One statement against a store. *)
Definition run_stmt (s : Stmt) (st : Store) : error + Store :=
  match s with
  | CreateMigrationsTable =>
      match ledger st with
      | None => inr (mkStore (Some []) (schema st))
      | Some _ => inr st
      end
  | SelectApplied | SelectLast =>
      match ledger st with
      | None => inl ErrNoTable
      | Some _ => inr st
      end
  | InsertMigration v d t =>
      match ledger st with
      | None => inl ErrNoTable
      | Some l =>
          if has_version v l then inl ErrUnique
          else inr (mkStore (Some (l ++ [mkRow v d t])) (schema st))
      end
  | DeleteMigration v =>
      match ledger st with
      | None => inl ErrNoTable
      | Some l =>
          inr (mkStore (Some (filter (fun r => row_version r ≠ v) l)) (schema st))
      end
  | Raw sql args => inr (mkStore (ledger st) (schema st ++ [(sql, args)]))
  end.

Definition by_version : relation Row := fun a b => (row_version a ≤ row_version b)%Z.

#[local] Instance by_version_dec a b : Decision (by_version a b).
Proof. unfold by_version. apply _. Defined.

(** The rows a query returns. *)
Definition run_query (s : Stmt) (st : Store) : error + list Row :=
  match s with
  | SelectApplied =>
      match ledger st with
      | None => inl ErrNoTable
      | Some l => inr (merge_sort by_version l)
      end
  | SelectLast =>
      match ledger st with
      | None => inl ErrNoTable
      | Some l =>
          match last (merge_sort by_version l) with
          | Some r => inr [r]
          | None => inr []
          end
      end
  | _ => inr []
  end.

(** The calls of the driver that the package makes. *)
Inductive Event : Type :=
| EvExec (s : Stmt)
| EvQuery (s : Stmt)
| EvQueryRow (s : Stmt)
| EvSendBatch (b : list Stmt)
| EvBatchStmt (s : Stmt)
| EvBegin
| EvTxExec (s : Stmt)
| EvCommit
| EvRollback
| EvClose.

Inductive TxState : Type :=
| NoTx
| Open (st : Store)
| Aborted.

Record World : Type := mkWorld {
  committed : Store;
  pending : TxState;
  faults : list (option error);
  closed : bool;
  clock : Z;
  trace : list Event;
  stdout : list string
}.

Definition set_committed (st : Store) (w : World) : World :=
  mkWorld st (pending w) (faults w) (closed w) (clock w) (trace w) (stdout w).
Definition set_pending (p : TxState) (w : World) : World :=
  mkWorld (committed w) p (faults w) (closed w) (clock w) (trace w) (stdout w).
Definition set_faults (f : list (option error)) (w : World) : World :=
  mkWorld (committed w) (pending w) f (closed w) (clock w) (trace w) (stdout w).
Definition set_closed (b : bool) (w : World) : World :=
  mkWorld (committed w) (pending w) (faults w) b (clock w) (trace w) (stdout w).
Definition log (e : Event) (w : World) : World :=
  mkWorld (committed w) (pending w) (faults w) (closed w) (clock w) (trace w ++ [e]) (stdout w).
Definition print (line : string) (w : World) : World :=
  mkWorld (committed w) (pending w) (faults w) (closed w) (clock w) (trace w) (stdout w ++ [line]).

(** [time.Now()]: the clock is read and moves on. *)
Definition now (w : World) : Z * World :=
  (clock w,
   mkWorld (committed w) (pending w) (faults w) (closed w) (clock w + 1) (trace w) (stdout w)).

(** The next slot of the failure plan; an exhausted plan never fails. *)
Definition draw (w : World) : option error * World :=
  match faults w with
  | [] => (None, w)
  | f :: fs => (f, set_faults fs w)
  end.

(** Taking a connection from the pool. *)
Definition acquire (w : World) : option error * World :=
  if closed w then (Some ErrClosedPool, w) else draw w.

(** The calls of the pgx driver that the package makes, over the world. *)
Module Driver.

Inductive Pool : Type := ThePool.
Inductive Tx : Type := TheTx.

(** [pool.Exec] *)
Definition pool_Exec (s : Stmt) (w : World) : option error * World :=
  match acquire (log (EvExec s) w) with
  | (Some e, w1) => (Some e, w1)
  | (None, w1) =>
      match run_stmt s (committed w1) with
      | inl e => (Some e, w1)
      | inr st => (None, set_committed st w1)
      end
  end.

(** [pool.Query]: the cursor is the list of rows still to be read. *)
Definition pool_Query (s : Stmt) (w : World) : (list Row * option error) * World :=
  match acquire (log (EvQuery s) w) with
  | (Some e, w1) => (([], Some e), w1)
  | (None, w1) =>
      match run_query s (committed w1) with
      | inl e => (([], Some e), w1)
      | inr rows => ((rows, None), w1)
      end
  end.

(** [rows.Scan] and [rows.Err] may fail while the cursor is read. *)
Definition rows_Scan (w : World) : option error * World := draw w.
Definition rows_Err (w : World) : option error * World := draw w.

(** [pool.QueryRow]: a failure is kept in the handle until [Scan]. *)
Definition RowHandle : Type := error + option Row.

Definition pool_QueryRow (s : Stmt) (w : World) : RowHandle * World :=
  match acquire (log (EvQueryRow s) w) with
  | (Some e, w1) => (inl e, w1)
  | (None, w1) =>
      match run_query s (committed w1) with
      | inl e => (inl e, w1)
      | inr rows => (inr (head rows), w1)
      end
  end.

Definition Scan (h : RowHandle) : error + Row :=
  match h with
  | inl e => inl e
  | inr None => inl ErrNoRows
  | inr (Some r) => inr r
  end.

(** [pool.Begin] *)
Definition pool_Begin (w : World) : (error + Tx) * World :=
  match acquire (log EvBegin w) with
  | (Some e, w1) => (inl e, w1)
  | (None, w1) => (inr TheTx, set_pending (Open (committed w1)) w1)
  end.

(** [tx.Exec]: a failed statement aborts the transaction. *)
Definition tx_Exec (s : Stmt) (w : World) : option error * World :=
  match draw (log (EvTxExec s) w) with
  | (Some e, w1) =>
      (Some e, match pending w1 with NoTx => w1 | _ => set_pending Aborted w1 end)
  | (None, w1) =>
      match pending w1 with
      | NoTx => (Some ErrTxClosed, w1)
      | Aborted => (Some ErrAborted, w1)
      | Open st =>
          match run_stmt s st with
          | inl e => (Some e, set_pending Aborted w1)
          | inr st' => (None, set_pending (Open st') w1)
          end
      end
  end.

(** [tx.Commit]: whatever the outcome, the transaction is closed. *)
Definition tx_Commit (w : World) : option error * World :=
  match draw (log EvCommit w) with
  | (Some e, w1) => (Some e, set_pending NoTx w1)
  | (None, w1) =>
      match pending w1 with
      | NoTx => (Some ErrTxClosed, w1)
      | Aborted => (Some ErrTxCommitRollback, set_pending NoTx w1)
      | Open st => (None, set_pending NoTx (set_committed st w1))
      end
  end.

(** [tx.Rollback] *)
Definition tx_Rollback (w : World) : option error * World :=
  match draw (log EvRollback w) with
  | (Some e, w1) => (Some e, set_pending NoTx w1)
  | (None, w1) =>
      match pending w1 with
      | NoTx => (Some ErrTxClosed, w1)
      | _ => (None, set_pending NoTx w1)
      end
  end.

(** The results of a batch: one outcome per statement the server reached;
    reading further repeats the failure that ended the batch. *)
Record BatchResults : Type := mkBatchResults {
  outcomes : list (option error);
  after : option error
}.

(** The server runs the statements of a batch in order, in one implicit
    transaction, and stops at the first failure. *)
Fixpoint run_batch (b : list Stmt) (st : Store) (w : World)
  : list (option error) * option Store * World :=
  match b with
  | [] => ([], Some st, w)
  | s :: rest =>
      match draw (log (EvBatchStmt s) w) with
      | (Some e, w1) => ([Some e], None, w1)
      | (None, w1) =>
          match run_stmt s st with
          | inl e => ([Some e], None, w1)
          | inr st' =>
              let '(rs, fin, w2) := run_batch rest st' w1 in
              (None :: rs, fin, w2)
          end
      end
  end.

(** [pool.SendBatch] *)
Definition pool_SendBatch (b : list Stmt) (w : World) : BatchResults * World :=
  match acquire (log (EvSendBatch b) w) with
  | (Some e, w1) => (mkBatchResults [] (Some e), w1)
  | (None, w1) =>
      let '(rs, fin, w2) := run_batch b (committed w1) w1 in
      (mkBatchResults rs (last rs ≫= id),
       match fin with
       | Some st => set_committed st w2
       | None => w2
       end)
  end.

(** [batchResults.Exec] *)
Definition br_Exec (br : BatchResults) : option error * BatchResults :=
  match outcomes br with
  | [] => (match after br with
           | Some e => Some e
           | None => Some (New "no more results in batch")
           end, br)
  | r :: rest => (r, mkBatchResults rest (after br))
  end.

(** [pool.Close]: closing twice is closing once. *)
Definition pool_Close (w : World) : World := set_closed true (log EvClose w).

End Driver.

(** ** Go computations: a state monad over the world, with panics *)

Inductive result (A : Type) : Type :=
| Ret (a : A)
| Panic (msg : string).
Arguments Ret {A} a.
Arguments Panic {A} msg.

Definition Go (A : Type) : Type := World -> result A * World.

Definition ret {A} (a : A) : Go A := fun w => (Ret a, w).

Definition bind {A B} (m : Go A) (k : A -> Go B) : Go B :=
  fun w =>
    match m w with
    | (Ret a, w1) => k a w1
    | (Panic msg, w1) => (Panic msg, w1)
    end.

Definition lift {A} (f : World -> A * World) : Go A :=
  fun w => let (a, w1) := f w in (Ret a, w1).

Notation "'let*' x ':=' m 'in' k" := (bind m (fun x => k))
  (at level 10, x pattern, m at level 100, k at level 200).

Definition nil_dereference : string :=
  "runtime error: invalid memory address or nil pointer dereference".

(** ** client.go and the query file: the client *)

Record Client : Type := mkClient {
  pool : option Driver.Pool;
  cfg : Config
}.

Definition NewClient (c : Config) : Client := mkClient None (fill_defaults c).

Definition NewClientFromEnv (env : gmap string string) : Client :=
  NewClient (env_config env).

(** A method of the pool called through [c.pool]: the methods of a nil
    pool dereference it. *)
Definition on_pool {A} (c : Client) (call : World -> A * World) : Go A :=
  match pool c with
  | None => fun w => (Panic nil_dereference, w)
  | Some _ => lift call
  end.

(** [Connect] returns the client as the assignment [c.pool = pool] leaves
    it; the pool it makes is a new, open one.  The three failures are those
    of parsing the connection string, of creating the pool and of the first
    ping. *)
Definition Connect (c : Client) : Go (option error * Client) :=
  let* parsed := lift draw in
  match parsed with
  | Some err => ret (Some (Errorf_w "failed to parse connection string: " err), c)
  | None =>
      let* created := lift draw in
      match created with
      | Some err => ret (Some (Errorf_w "failed to create connection pool: " err), c)
      | None =>
          let* pinged := lift draw in
          match pinged with
          | Some err => ret (Some (Errorf_w "failed to ping database: " err), c)
          | None =>
              fun w => (Ret (None, mkClient (Some Driver.ThePool) (cfg c)), set_closed false w)
          end
      end
  end.

Definition Close (c : Client) : Go unit :=
  match pool c with
  | Some _ => fun w => (Ret tt, Driver.pool_Close w)
  | None => ret tt
  end.

Definition Ping (c : Client) : Go (option error) :=
  match pool c with
  | None => ret (Some (New "connection pool is not initialized"))
  | Some _ => lift acquire
  end.

Definition QueryRow (c : Client) (query : Stmt) : Go Driver.RowHandle :=
  on_pool c (Driver.pool_QueryRow query).

Definition QueryRows (c : Client) (query : Stmt) : Go (list Row * option error) :=
  on_pool c (Driver.pool_Query query).

Definition Exec (c : Client) (query : Stmt) : Go (option error) :=
  on_pool c (Driver.pool_Exec query).

Definition ExecTx (c : Client) (fn : Driver.Tx -> Go (option error)) : Go (option error) :=
  let* begun := on_pool c Driver.pool_Begin in
  match begun with
  | inl err => ret (Some (Errorf_w "failed to begin transaction: " err))
  | inr tx =>
      let* worked := fn tx in
      match worked with
      | Some err =>
          let* rolled := lift Driver.tx_Rollback in
          match rolled with
          | Some rbErr =>
              ret (Some (New ("tx failed: " +:+ Error err +:+
                              ", rollback failed: " +:+ Error rbErr)))
          | None => ret (Some err)
          end
      | None =>
          let* done := lift Driver.tx_Commit in
          match done with
          | Some err => ret (Some (Errorf_w "failed to commit transaction: " err))
          | None => ret None
          end
      end
  end.

(** The first loop of [ExecBatch]: statement [i] gets [args[i]] when there
    is one and no arguments otherwise. *)
Fixpoint queue (i : nat) (queries : list string) (args : list (list Value)) : list Stmt :=
  match queries with
  | [] => []
  | query :: rest =>
      Raw query (match args !! i with Some queryArgs => queryArgs | None => [] end)
        :: queue (S i) rest args
  end.

(** The second loop: [n] results are still to be pulled, the next is [i]. *)
Fixpoint pull (n : nat) (i : nat) (br : Driver.BatchResults) : option error :=
  match n with
  | O => None
  | S n' =>
      match Driver.br_Exec br with
      | (Some err, _) =>
          Some (Errorf_w ("error in batch query " +:+ fmt_d (Z.of_nat i) +:+ ": ") err)
      | (None, br') => pull n' (S i) br'
      end
  end.

Definition ExecBatch (c : Client) (queries : list string) (args : list (list Value))
  : Go (option error) :=
  let batch := queue 0 queries args in
  let* batchResults := on_pool c (Driver.pool_SendBatch batch) in
  ret (pull (length batch) 0 batchResults).

(** ** The migration file *)

Record Migration : Type := mkMigration {
  Version : Z;
  Description : string;
  SQL : string;
  Timestamp : Z
}.

Record MigrationManager : Type := mkManager { client : Client }.

Definition NewMigrationManager (c : Client) : MigrationManager := mkManager c.

Definition InitMigrationTable (m : MigrationManager) : Go (option error) :=
  let* err := Exec (client m) CreateMigrationsTable in
  match err with
  | Some e => ret (Some (Errorf_w "error creating migrations table: " e))
  | None => ret None
  end.

(** The loop over the cursor in [GetAppliedMigrations]. *)
Fixpoint scan_rows (rows : list Row) (result : gmap Z Z) : Go (gmap Z Z * option error) :=
  match rows with
  | [] =>
      let* err := lift Driver.rows_Err in
      match err with
      | Some e => ret (∅, Some (Errorf_w "error iterating migrations: " e))
      | None => ret (result, None)
      end
  | r :: rest =>
      let* err := lift Driver.rows_Scan in
      match err with
      | Some e => ret (∅, Some (Errorf_w "error scanning migration: " e))
      | None => scan_rows rest (<[row_version r := row_applied_at r]> result)
      end
  end.

Definition GetAppliedMigrations (m : MigrationManager) : Go (gmap Z Z * option error) :=
  let* queried := QueryRows (client m) SelectApplied in
  match queried with
  | (_, Some err) => ret (∅, Some (Errorf_w "error querying migrations: " err))
  | (rows, None) => scan_rows rows ∅
  end.

Definition ApplyMigration (m : MigrationManager) (migration : Migration) : Go (option error) :=
  ExecTx (client m) (fun tx =>
    let* err := lift (Driver.tx_Exec (Raw (SQL migration) [])) in
    match err with
    | Some e =>
        ret (Some (Errorf_w ("error applying migration " +:+ fmt_d (Version migration) +:+ ": ") e))
    | None =>
        let* t := lift now in
        let* err := lift (Driver.tx_Exec
                            (InsertMigration (Version migration) (Description migration) t)) in
        match err with
        | Some e =>
            ret (Some (Errorf_w ("error registering migration "
                                 +:+ fmt_d (Version migration) +:+ ": ") e))
        | None => ret None
        end
    end).

Definition newline : string := String (ascii_of_nat 10) EmptyString.

Definition applied_line (migration : Migration) : string :=
  "Applied migration " +:+ fmt_d (Version migration) +:+ ": "
  +:+ Description migration +:+ newline.

(** The loop of [Migrate], over the slice as it was passed. *)
Fixpoint migrate_loop (m : MigrationManager) (applied : gmap Z Z)
         (migrations : list Migration) : Go (option error) :=
  match migrations with
  | [] => ret None
  | migration :: rest =>
      match applied !! Version migration with
      | Some _ => migrate_loop m applied rest
      | None =>
          let* err := ApplyMigration m migration in
          match err with
          | Some e => ret (Some e)
          | None =>
              let* _ := lift (fun w => (tt, print (applied_line migration) w)) in
              migrate_loop m applied rest
          end
      end
  end.

Definition Migrate (m : MigrationManager) (migrations : list Migration) : Go (option error) :=
  let* err := InitMigrationTable m in
  match err with
  | Some e => ret (Some e)
  | None =>
      let* got := GetAppliedMigrations m in
      match got with
      | (_, Some e) => ret (Some e)
      | (applied, None) => migrate_loop m applied migrations
      end
  end.

Definition RollbackLastMigration (m : MigrationManager) (rollbacks : gmap Z string)
  : Go (option error) :=
  let* row := QueryRow (client m) SelectLast in
  match Driver.Scan row with
  | inl err => ret (Some (Errorf_w "error getting last migration: " err))
  | inr last_row =>
      let lastVersion := row_version last_row in
      match rollbacks !! lastVersion with
      | None => ret (Some (New ("no rollback for migration " +:+ fmt_d lastVersion)))
      | Some rollbackSQL =>
          ExecTx (client m) (fun tx =>
            let* err := lift (Driver.tx_Exec (Raw rollbackSQL [])) in
            match err with
            | Some e =>
                ret (Some (Errorf_w ("error applying rollback "
                                     +:+ fmt_d lastVersion +:+ ": ") e))
            | None =>
                let* err := lift (Driver.tx_Exec (DeleteMigration lastVersion)) in
                match err with
                | Some e =>
                    ret (Some (Errorf_w ("error deleting migration record "
                                         +:+ fmt_d lastVersion +:+ ": ") e))
                | None => ret None
                end
            end)
      end
  end.

(** ** The migration file: loading migrations from a directory *)

Module Strings.

(** [strings.HasSuffix] *)
Definition HasSuffix (s suffix : string) : bool :=
  (String.length suffix <=? String.length s)%nat
  && String.eqb (substring (String.length s - String.length suffix)
                           (String.length suffix) s) suffix.

(** [strings.TrimSuffix] *)
Definition TrimSuffix (s suffix : string) : string :=
  if HasSuffix s suffix
  then substring 0 (String.length s - String.length suffix) s
  else s.

(** Cutting [s] at the first underscore. *)
Fixpoint cut (s : string) : option (string * string) :=
  match s with
  | EmptyString => None
  | String c rest =>
      if Ascii.eqb c "_"%char then Some (EmptyString, rest)
      else match cut rest with
           | Some (before, after) => Some (String c before, after)
           | None => None
           end
  end.

(** [strings.SplitN(s, "_", 2)] *)
Definition SplitN2 (s : string) : list string :=
  match cut s with
  | Some (before, after) => [before; after]
  | None => [s]
  end.

Definition is_digit (c : ascii) : bool :=
  (48 <=? Z.of_N (N_of_ascii c)) && (Z.of_N (N_of_ascii c) <=? 57).

(** The value of a run of decimal digits, [None] at any other byte. *)
Fixpoint digits (s : string) (acc : Z) : option Z :=
  match s with
  | EmptyString => Some acc
  | String c rest =>
      if is_digit c then digits rest (acc * 10 + (Z.of_N (N_of_ascii c) - 48))
      else None
  end.

(** [strconv.Atoi]: an optional sign, at least one decimal digit, and a
    value that fits [int]; [None] stands for its two errors (syntax and
    range). *)
Definition Atoi (s : string) : option Z :=
  match s with
  | EmptyString => None
  | String c rest =>
      let negative := Ascii.eqb c "-"%char in
      let body := if negative || Ascii.eqb c "+"%char then rest else s in
      match body with
      | EmptyString => None
      | _ =>
          match digits body 0 with
          | None => None
          | Some n =>
              let v := if negative then - n else n in
              if (min_int <=? v) && (v <=? max_int) then Some v else None
          end
      end
  end.

(** Whether the byte [c] occurs in [s]. *)
Fixpoint contains_char (c : ascii) (s : string) : bool :=
  match s with
  | EmptyString => false
  | String d rest => Ascii.eqb d c || contains_char c rest
  end.

End Strings.

Module Files.

(** [os.DirEntry] *)
Record DirEntry : Type := mkEntry {
  Name : string;
  IsDir : bool
}.

(** The file system as [os.ReadDir] and [os.ReadFile] see it. *)
Record FS : Type := mkFS {
  ReadDir : string -> error + list DirEntry;
  ReadFile : string -> error + string
}.

(** [filepath.Join] of a directory and an entry name. *)
Definition Join (dir name : string) : string := dir +:+ "/" +:+ name.

End Files.

Definition by_Version : relation Migration := fun a b => (Version a ≤ Version b)%Z.

#[local] Instance by_Version_dec a b : Decision (by_Version a b).
Proof. unfold by_Version. apply _. Defined.

(** [sort.Slice] with the comparison of versions.  The order it leaves
    between equal versions is not specified; nothing below depends on it. *)
Definition sort_Slice (migrations : list Migration) : list Migration :=
  merge_sort by_Version migrations.

(** The loop of [LoadMigrationsFromPath] over the directory entries. *)
Fixpoint load_entries (fs : Files.FS) (migrationsPath : string)
         (entries : list Files.DirEntry) (migrations : list Migration)
  : Go (list Migration * option error) :=
  match entries with
  | [] => ret (migrations, None)
  | entry :: rest =>
      if negb (Files.IsDir entry) && Strings.HasSuffix (Files.Name entry) ".sql" then
        match Strings.SplitN2 (Files.Name entry) with
        | [token; _] =>
            match Strings.Atoi token with
            | None => load_entries fs migrationsPath rest migrations
            | Some version =>
                match Files.ReadFile fs (Files.Join migrationsPath (Files.Name entry)) with
                | inl err =>
                    ret ([], Some (Errorf_w ("error reading migration file "
                                             +:+ Files.Name entry +:+ ": ") err))
                | inr content =>
                    let description := Strings.TrimSuffix (Files.Name entry) ".sql" in
                    let* t := lift now in
                    load_entries fs migrationsPath rest
                                 (migrations ++ [mkMigration version description content t])
                end
            end
        | _ => load_entries fs migrationsPath rest migrations
        end
      else load_entries fs migrationsPath rest migrations
  end.

Definition LoadMigrationsFromPath (fs : Files.FS) (migrationsPath : string)
  : Go (list Migration * option error) :=
  match Files.ReadDir fs migrationsPath with
  | inl err => ret ([], Some (Errorf_w "error reading migrations directory: " err))
  | inr entries =>
      let* loaded := load_entries fs migrationsPath entries [] in
      match loaded with
      | (_, Some err) => ret ([], Some err)
      | (migrations, None) => ret (sort_Slice migrations, None)
      end
  end.

(** ** What a trace shows *)

(** The caller's SQL bodies that were run inside a transaction, in order. *)
Definition body_of (e : Event) : option string :=
  match e with
  | EvTxExec (Raw sql _) => Some sql
  | _ => None
  end.

Definition executed_bodies (tr : list Event) : list string := omap body_of tr.

(** The versions whose ledger row was written inside a transaction, in order. *)
Definition recorded_of (e : Event) : option Z :=
  match e with
  | EvTxExec (InsertMigration v _ _) => Some v
  | _ => None
  end.

Definition applied_order (tr : list Event) : list Z := omap recorded_of tr.

(** The statements run inside a transaction, whatever they are. *)
Definition tx_statement_of (e : Event) : option Stmt :=
  match e with
  | EvTxExec s => Some s
  | _ => None
  end.

Definition tx_statements (tr : list Event) : list Stmt := omap tx_statement_of tr.

(** The attempts to end a transaction. *)
Definition is_finish (e : Event) : bool :=
  match e with
  | EvCommit | EvRollback => true
  | _ => false
  end.

Definition finishes (tr : list Event) : list Event := List.filter is_finish tr.

(** The versions in the ledger of a store; none while the table is missing. *)
Definition ledger_versions (st : Store) : list Z :=
  match ledger st with
  | Some l => versions l
  | None => []
  end.

(** The migrations of the input that the ledger does not have, in the order
    of the input. *)
Definition pending_of (st : Store) (migrations : list Migration) : list Migration :=
  List.filter (fun mig => negb (existsb (Z.eqb (Version mig)) (ledger_versions st))) migrations.

(** [sub] occurs inside [s]. *)
Definition occurs_in (sub s : string) : Prop :=
  exists before after, s = before +:+ sub +:+ after.

(** The error [RollbackLastMigration] builds from any failure of its lookup
    of the last row. *)
Definition lookup_failure (e : error) : Prop :=
  exists cause, e = Errorf_w "error getting last migration: " cause.

(** What the loader makes of one directory entry whose file holds
    [content]: the version when the name follows the convention. *)
Definition version_of_name (name : string) : option Z :=
  if Strings.HasSuffix name ".sql" then
    match Strings.SplitN2 name with
    | [token; _] => Strings.Atoi token
    | _ => None
    end
  else None.

Definition recognised (entry : Files.DirEntry) : option Z :=
  if Files.IsDir entry then None else version_of_name (Files.Name entry).

(** What is kept of a migration besides the time it was found at. *)
Definition facts (mig : Migration) : Z * string * string :=
  (Version mig, Description mig, SQL mig).

(** The migration expected from one directory entry: none when the entry is
    not recognised. *)
Definition expected (fs : Files.FS) (migrationsPath : string) (entry : Files.DirEntry)
  : option (Z * string * string) :=
  match recognised entry with
  | None => None
  | Some version =>
      match Files.ReadFile fs (Files.Join migrationsPath (Files.Name entry)) with
      | inl _ => None
      | inr content => Some (version, Strings.TrimSuffix (Files.Name entry) ".sql", content)
      end
  end.

(** Every recognised entry of the listing can be read. *)
Definition readable (fs : Files.FS) (migrationsPath : string)
           (entries : list Files.DirEntry) : Prop :=
  forall entry version,
    entry ∈ entries -> recognised entry = Some version ->
    exists content,
      Files.ReadFile fs (Files.Join migrationsPath (Files.Name entry)) = inr content.

(** ** Sample data *)

Module Sample.

Definition config : Config := mkConfig "localhost" 5432 "postgres" "postgres" "example" "disable" 0 0.

(** A client on which [Connect] succeeded, and its manager. *)
Definition pg : Client := mkClient (Some Driver.ThePool) (fill_defaults config).
Definition manager : MigrationManager := NewMigrationManager pg.

(** A server without the ledger table, and one with an empty ledger. *)
Definition fresh : World := mkWorld (mkStore None []) NoTx [] false 0 [] [].
Definition empty_ledger : World := mkWorld (mkStore (Some []) []) NoTx [] false 0 [] [].

Definition m1 : Migration := mkMigration 1 "001_create_users" "CREATE TABLE users" 0.
Definition m2 : Migration := mkMigration 2 "002_add_status" "ALTER TABLE users" 0.
Definition m3 : Migration := mkMigration 3 "003_create_posts" "CREATE TABLE posts" 0.
Definition m4 : Migration := mkMigration 4 "004_add_index" "CREATE INDEX" 0.

Definition r1 : Row := mkRow 1 "001_create_users" 10.
Definition r2 : Row := mkRow 2 "002_add_status" 11.
Definition r3 : Row := mkRow 3 "003_create_posts" 12.

(** Versions 1, 2 and 3 applied. *)
Definition three_applied : World :=
  mkWorld (mkStore (Some [r1; r2; r3]) [("CREATE TABLE users", []); ("ALTER TABLE users", []);
                                        ("CREATE TABLE posts", [])])
          NoTx [] false 20 [] [].

(** The server after [Migrate] has applied versions 1 and 2 to [fresh]. *)
Definition two_applied : World :=
  Eval vm_compute in snd (Migrate manager [m1; m2] fresh).

(** The same server when the next call on the driver fails. *)
Definition three_applied_unreachable : World :=
  set_faults [Some (New "connection refused")] three_applied.

(** Work that fails, and a driver whose rollback fails as well. *)
Definition failing_work (_ : Driver.Tx) : Go (option error) :=
  ret (Some (New "insufficient funds")).
Definition rollback_breaks : World :=
  set_faults [None; Some (New "conn closed")] fresh.

(** The directory of the scenario, as [os.ReadDir] lists it. *)
Definition scenario_entries : list Files.DirEntry :=
  [Files.mkEntry "001_create_users.sql" false;
   Files.mkEntry "002_add_status.sql" false;
   Files.mkEntry "abc_bad.sql" false].

Definition scenario_fs : Files.FS :=
  Files.mkFS (fun _ => inr scenario_entries) (fun path => inr ("-- " +:+ path)).

(** A directory with a file whose leading token has a minus sign. *)
Definition signed_fs : Files.FS :=
  Files.mkFS (fun _ => inr [Files.mkEntry "-1_down.sql" false]) (fun _ => inr "DROP TABLE users").

End Sample.

(** ** Expected values and further sample data *)

(** The configuration of [NewClientFromEnv] when no variable is set. *)
Definition env_defaults : Config :=
  mkConfig "localhost" 5432 "postgres" "postgres" "postgres" "disable" (30 * Second) 50.

(** A configuration with every field left at its zero value. *)
Definition zero_config : Config :=
  mkConfig EmptyString 0 EmptyString EmptyString EmptyString EmptyString 0 0.

(** The map [GetAppliedMigrations] returned; empty after a panic. *)
Definition fst_map (x : result (gmap Z Z * option error) * World) : gmap Z Z :=
  match fst x with
  | Ret (applied, _) => applied
  | Panic _ => ∅
  end.

(** The version among the facts of a migration. *)
Definition fact_version (x : Z * string * string) : Z := fst (fst x).

(** The migrations a load returned; none after an error or a panic. *)
Definition fst_migrations (x : result (list Migration * option error) * World)
  : list Migration :=
  match fst x with
  | Ret (migrations, _) => migrations
  | Panic _ => []
  end.

(** The three failures [Connect] reports. *)
Definition connect_prefixes : list string :=
  ["failed to parse connection string: ";
   "failed to create connection pool: ";
   "failed to ping database: "].

Module Cases.

(** The client [Connect] returns for a new client on a reachable server. *)
Definition connected : Client :=
  match fst (Connect (NewClient Sample.config) Sample.fresh) with
  | Ret (_, c) => c
  | Panic _ => NewClient Sample.config
  end.

(** Work that succeeds after one statement. *)
Definition one_insert (_ : Driver.Tx) : Go (option error) :=
  lift (Driver.tx_Exec (Raw "INSERT INTO users" [])).

(** Work that panics. *)
Definition panicking_work (_ : Driver.Tx) : Go (option error) :=
  fun w => (Panic "index out of range", w).

(** A fresh server on which the body of the second migration fails. *)
Definition second_body_fails : World :=
  set_faults [None; None; None; None; None; None; None; None; Some (New "syntax error")]
             Sample.fresh.

(** A directory whose second file cannot be read. *)
Definition unreadable_fs : Files.FS :=
  Files.mkFS (fun _ => inr Sample.scenario_entries)
             (fun path => if String.eqb path "migrations/002_add_status.sql"
                          then inl (New "permission denied")
                          else inr ("-- " +:+ path)).

(** The directory of the scenario, listed in another order. *)
Definition shuffled_fs : Files.FS :=
  Files.mkFS (fun _ => inr [Files.mkEntry "abc_bad.sql" false;
                            Files.mkEntry "002_add_status.sql" false;
                            Files.mkEntry "001_create_users.sql" false])
             (Files.ReadFile Sample.scenario_fs).

(** A driver whose commit fails. *)
Definition commit_breaks : World :=
  set_faults [None; None; Some (New "conn closed")] Sample.fresh.

End Cases.

(** * Properties *)

(** ** Strings and errors *)

Lemma append_nil (b : string) : EmptyString +:+ b = b.
Proof. reflexivity. Qed.

Lemma append_cons (c : ascii) (a b : string) : String c a +:+ b = String c (a +:+ b).
Proof. reflexivity. Qed.

Lemma length_append (a b : string) :
  String.length (a +:+ b) = (String.length a + String.length b)%nat.
Proof.
  induction a as [|c a IH]; [reflexivity|].
  rewrite append_cons. simpl. now rewrite IH.
Qed.

Lemma append_assoc (a b c : string) : (a +:+ b) +:+ c = a +:+ (b +:+ c).
Proof.
  induction a as [|x a IH]; [reflexivity|].
  rewrite !append_cons. now rewrite IH.
Qed.

Lemma Is_refl (e : error) : Is e e.
Proof. destruct e; simpl; now left. Qed.

Lemma Is_Errorf_w (prefix : string) (cause : error) : Is (Errorf_w prefix cause) cause.
Proof. simpl. right. apply Is_refl. Qed.

(** ** Reading integers from the environment *)

Module EnvFacts.
Import Env.

(** A byte above the digit nine stops [parseInt] with an error. *)
Lemma loop_rejects_above_nine (s1 s2 : string) (c : ascii) (n : Z) :
  57 < rune_of c -> parseInt_loop (s1 +:+ String c s2) n = None.
Proof.
  intros Hc. revert n.
  induction s1 as [|d s1 IH]; intros n; [rewrite append_nil | rewrite append_cons]; simpl.
  - destruct (Z.ltb_spec 9 (rune_of c - rune_of "0")) as [_|Hle]; [reflexivity|].
    change (rune_of "0") with 48 in Hle. lia.
  - destruct (9 <? rune_of d - rune_of "0"); [reflexivity | apply IH].
Qed.

(** A byte below the digit zero does not stop it: the difference is
    negative, and the test only looks above nine. *)
Lemma loop_accepts_below_zero (c : ascii) (s : string) (n : Z) :
  rune_of c < 48 ->
  parseInt_loop (String c s) n = parseInt_loop s (wrap64 (n * 10 + (rune_of c - 48))).
Proof.
  intros Hc. simpl. change (rune_of "0") with 48.
  destruct (Z.ltb_spec 9 (rune_of c - 48)); [lia | reflexivity].
Qed.

Lemma getEnvInt_unset env key fallback :
  env !! key = None -> getEnvInt env key fallback = fallback.
Proof. intros H. unfold getEnvInt. now rewrite H. Qed.

Lemma getEnvInt_above_nine env key fallback s1 c s2 :
  env !! key = Some (s1 +:+ String c s2) -> 57 < rune_of c ->
  getEnvInt env key fallback = fallback.
Proof.
  intros H Hc. unfold getEnvInt, parseInt. rewrite H.
  now rewrite loop_rejects_above_nine.
Qed.

(** The empty value parses as zero, so the variable yields zero. *)
Lemma getEnvInt_empty env key fallback :
  env !! key = Some EmptyString -> getEnvInt env key fallback = 0.
Proof. intros H. unfold getEnvInt. now rewrite H. Qed.

End EnvFacts.

(** With the three integer variables set to the empty string, [NewClient]
    sees zeros and puts its own defaults in their place. *)
Lemma NewClientFromEnv_empty_values (env : gmap string string) :
  env !! "DB_PORT" = Some EmptyString -> env !! "DB_TIMEOUT" = Some EmptyString ->
  env !! "DB_MAX_CONNS" = Some EmptyString ->
  Port (cfg (NewClientFromEnv env)) = 5432 /\
  Timeout (cfg (NewClientFromEnv env)) = 5 * Second /\
  MaxConns (cfg (NewClientFromEnv env)) = 10.
Proof.
  intros Hp Ht Hm. unfold NewClientFromEnv, NewClient, env_config.
  rewrite !(EnvFacts.getEnvInt_empty env _ _ Hp), !(EnvFacts.getEnvInt_empty env _ _ Ht),
          !(EnvFacts.getEnvInt_empty env _ _ Hm).
  change (wrap64 (0 * Second)) with 0. change (wrap32 0) with 0.
  unfold fill_defaults. cbn [cfg Port with_Port Z.eqb]. cbv zeta.
  destruct (String.eqb _ EmptyString); cbn; repeat split; reflexivity.
Qed.

(** C10. [getEnvInt] is meant to fall back on anything that is not a run of
    decimal digits.  It does not: a minus sign, a plus sign and a space lie
    below the digit zero, pass the test of [parseInt] and are folded into
    the number, so DB_PORT set to "-5" yields the port -25 instead of the
    fallback 5432 (and "+" alone yields -5, " 7" yields -153). *)
Theorem getEnvInt_sign_not_rejected :
  Env.parseInt "-5" = (-25, None) /\
  Env.parseInt "+" = (-5, None) /\
  Env.parseInt " 7" = (-153, None) /\
  Env.getEnvInt {[ "DB_PORT" := "-5" ]} "DB_PORT" 5432 = -25 /\
  Port (cfg (NewClientFromEnv {[ "DB_PORT" := "-5" ]})) = -25.
Proof. repeat split; vm_compute; reflexivity. Qed.

(** ** The client before [Connect] *)

Lemma NewClient_pool (config : Config) : pool (NewClient config) = None.
Proof. reflexivity. Qed.

(** A [Connect] that fails leaves the pool unset. *)
Lemma Connect_failure_keeps_pool (c : Client) (w w' : World) (err : error) (c' : Client) :
  Connect c w = (Ret (Some err, c'), w') -> c' = c.
Proof.
  unfold Connect, bind, lift, ret.
  destruct (draw w) as [[e1|] w1]; [intros [= _ <- _]; reflexivity|].
  destruct (draw w1) as [[e2|] w2]; [intros [= _ <- _]; reflexivity|].
  destruct (draw w2) as [[e3|] w3]; [intros [= _ <- _]; reflexivity|].
  intros [=].
Qed.

(** A [Connect] that succeeds sets it. *)
Lemma Connect_success_sets_pool (c c' : Client) (w w' : World) :
  Connect c w = (Ret (None, c'), w') -> is_Some (pool c').
Proof.
  unfold Connect, bind, lift, ret.
  destruct (draw w) as [[e1|] w1]; [intros [=]|].
  destruct (draw w1) as [[e2|] w2]; [intros [=]|].
  destruct (draw w2) as [[e3|] w3]; [intros [=]|].
  intros [= <- _]. simpl. eauto.
Qed.

(** [Close] on a closed pool changes nothing in the server but the record
    of the call. *)
Lemma Close_twice (c : Client) (w : World) :
  let w1 := snd (Close c w) in
  let w2 := snd (Close c w1) in
  committed w2 = committed w1 /\ pending w2 = pending w1 /\
  closed w2 = closed w1 /\ faults w2 = faults w1.
Proof.
  unfold Close. destruct (pool c); simpl; repeat split; reflexivity.
Qed.

(** C8. On a client whose [Connect] was never called, [Ping] is guarded and
    [Close] does nothing, as the claim says; but [QueryRow], [QueryRows],
    [Exec], [ExecBatch] and [ExecTx] have no such guard: they call a method
    of the nil pool and the program panics instead of returning an error. *)
Theorem never_connected_operations_panic
        (config : Config) (w : World) (query : Stmt)
        (queries : list string) (args : list (list Value))
        (fn : Driver.Tx -> Go (option error)) :
  let c := NewClient config in
  Ping c w = (Ret (Some (New "connection pool is not initialized")), w) /\
  Close c w = (Ret tt, w) /\
  QueryRow c query w = (Panic nil_dereference, w) /\
  QueryRows c query w = (Panic nil_dereference, w) /\
  Exec c query w = (Panic nil_dereference, w) /\
  ExecBatch c queries args w = (Panic nil_dereference, w) /\
  ExecTx c fn w = (Panic nil_dereference, w).
Proof. repeat split; reflexivity. Qed.

(** ** The transaction runner *)

Lemma append_empty_r (a : string) : a +:+ EmptyString = a.
Proof.
  induction a as [|x a IH]; [reflexivity|].
  rewrite append_cons. now rewrite IH.
Qed.

Lemma composite_longer (e rb : string) :
  (String.length e < String.length ("tx failed: " +:+ e +:+ ", rollback failed: " +:+ rb))%nat
  /\ (String.length rb < String.length ("tx failed: " +:+ e +:+ ", rollback failed: " +:+ rb))%nat.
Proof. rewrite !length_append. simpl. lia. Qed.

Section ExecTx.

Variable c : Client.
Variable fn : Driver.Tx -> Go (option error).
Hypothesis connected : is_Some (pool c).

Lemma ExecTx_begin_failed (w w1 : World) (err : error) :
  Driver.pool_Begin w = (inl err, w1) ->
  ExecTx c fn w = (Ret (Some (Errorf_w "failed to begin transaction: " err)), w1).
Proof.
  intros Hb. destruct connected as [p Hp].
  unfold ExecTx, bind, on_pool, lift. rewrite Hp, Hb. reflexivity.
Qed.

Lemma ExecTx_after_work (w w1 w2 : World) (tx : Driver.Tx) (worked : option error) :
  Driver.pool_Begin w = (inr tx, w1) ->
  fn tx w1 = (Ret worked, w2) ->
  ExecTx c fn w =
    match worked with
    | Some err =>
        match Driver.tx_Rollback w2 with
        | (Some rbErr, w3) =>
            (Ret (Some (New ("tx failed: " +:+ Error err +:+
                             ", rollback failed: " +:+ Error rbErr))), w3)
        | (None, w3) => (Ret (Some err), w3)
        end
    | None =>
        match Driver.tx_Commit w2 with
        | (Some err, w3) => (Ret (Some (Errorf_w "failed to commit transaction: " err)), w3)
        | (None, w3) => (Ret None, w3)
        end
    end.
Proof.
  intros Hb Hf. destruct connected as [p Hp].
  unfold ExecTx, bind, on_pool, lift. rewrite Hp, Hb, Hf.
  destruct worked as [err|].
  - destruct (Driver.tx_Rollback w2) as [[rb|] w3]; reflexivity.
  - destruct (Driver.tx_Commit w2) as [[ce|] w3]; reflexivity.
Qed.

Lemma tx_Rollback_trace (w : World) :
  trace (snd (Driver.tx_Rollback w)) = trace w ++ [EvRollback]
  /\ pending (snd (Driver.tx_Rollback w)) = NoTx
  /\ committed (snd (Driver.tx_Rollback w)) = committed w.
Proof.
  unfold Driver.tx_Rollback, draw. destruct w as [st p fs cl ck tr out]; simpl.
  destruct fs as [|[e|] fs]; simpl; destruct p; simpl; repeat split; reflexivity.
Qed.

Lemma tx_Commit_trace (w : World) :
  trace (snd (Driver.tx_Commit w)) = trace w ++ [EvCommit]
  /\ pending (snd (Driver.tx_Commit w)) = NoTx.
Proof.
  unfold Driver.tx_Commit, draw. destruct w as [st p fs cl ck tr out]; simpl.
  destruct fs as [|[e|] fs]; simpl; destruct p; simpl; repeat split; reflexivity.
Qed.

Lemma pool_Begin_trace (w w1 : World) (b : error + Driver.Tx) :
  Driver.pool_Begin w = (b, w1) ->
  trace w1 = trace w ++ [EvBegin] /\ committed w1 = committed w /\
  match b with
  | inl _ => pending w1 = pending w
  | inr _ => pending w1 = Open (committed w)
  end.
Proof.
  unfold Driver.pool_Begin, acquire, draw. destruct w as [st p fs cl ck tr out]; simpl.
  destruct cl; simpl; [intros [= <- <-]; simpl; auto|].
  destruct fs as [|[e|] fs]; simpl; intros [= <- <-]; simpl; auto.
Qed.

End ExecTx.

(** C2. When the work function fails with [err]: if the rollback succeeds,
    [ExecTx] returns [err] itself; if the rollback fails with [rbErr], it
    returns one error whose text is "tx failed: <err>, rollback failed:
    <rbErr>", so both failures occur in it and it differs from [err] (and
    from [rbErr]), which tells the two outcomes apart. *)
Theorem ExecTx_work_failure
        (c : Client) (fn : Driver.Tx -> Go (option error))
        (w w1 w2 : World) (tx : Driver.Tx) (err : error) :
  is_Some (pool c) ->
  Driver.pool_Begin w = (inr tx, w1) ->
  fn tx w1 = (Ret (Some err), w2) ->
  (forall w3, Driver.tx_Rollback w2 = (None, w3) ->
     ExecTx c fn w = (Ret (Some err), w3)) /\
  (forall rbErr w3, Driver.tx_Rollback w2 = (Some rbErr, w3) ->
     exists both,
       ExecTx c fn w = (Ret (Some both), w3) /\
       Error both = "tx failed: " +:+ Error err +:+ ", rollback failed: " +:+ Error rbErr /\
       occurs_in (Error err) (Error both) /\
       occurs_in (Error rbErr) (Error both) /\
       Error both <> Error err /\ Error both <> Error rbErr /\
       both <> err).
Proof.
  intros Hc Hb Hf. pose proof (ExecTx_after_work c fn Hc w w1 w2 tx _ Hb Hf) as E.
  split.
  - intros w3 Hr. now rewrite Hr in E.
  - intros rbErr w3 Hr. rewrite Hr in E.
    eexists. split; [exact E|]. simpl.
    destruct (composite_longer (Error err) (Error rbErr)) as [L1 L2].
    repeat split.
    + exists "tx failed: ", (", rollback failed: " +:+ Error rbErr). reflexivity.
    + exists ("tx failed: " +:+ Error err +:+ ", rollback failed: "), EmptyString.
      rewrite append_empty_r. rewrite !append_assoc. reflexivity.
    + intros Heq. rewrite Heq in L1. lia.
    + intros Heq. rewrite Heq in L2. lia.
    + intros Heq. apply (f_equal Error) in Heq. simpl in Heq. rewrite Heq in L1. lia.
Qed.

Lemma ExecTx_work_failure_witness :
  exists both,
    ExecTx Sample.pg Sample.failing_work Sample.rollback_breaks
    = (Ret (Some both), snd (ExecTx Sample.pg Sample.failing_work Sample.rollback_breaks))
    /\ Error both = "tx failed: insufficient funds, rollback failed: conn closed".
Proof.
  destruct (ExecTx_work_failure Sample.pg Sample.failing_work Sample.rollback_breaks
              (snd (Driver.pool_Begin Sample.rollback_breaks))
              (snd (Driver.pool_Begin Sample.rollback_breaks))
              Driver.TheTx (New "insufficient funds")) as [_ H].
  - vm_compute. eauto.
  - reflexivity.
  - reflexivity.
  - destruct (H (New "conn closed")
                (snd (ExecTx Sample.pg Sample.failing_work Sample.rollback_breaks)))
      as (both & E & M & _).
    + reflexivity.
    + exists both. split; [exact E | exact M].
Defined.

(** C3. Once [Begin] has succeeded and the work function has returned,
    [ExecTx] makes exactly one more call on the transaction: a rollback when
    the work failed, a commit when it did not; never both, never neither,
    and no transaction is open afterwards.  When [Begin] fails, the work
    function is not run, neither call is made and no transaction was
    opened. *)
Theorem ExecTx_ends_transaction_once
        (c : Client) (fn : Driver.Tx -> Go (option error)) (w : World) :
  is_Some (pool c) ->
  (forall err w1, Driver.pool_Begin w = (inl err, w1) ->
     ExecTx c fn w = (Ret (Some (Errorf_w "failed to begin transaction: " err)), w1) /\
     trace w1 = trace w ++ [EvBegin] /\
     pending w1 = pending w /\ committed w1 = committed w) /\
  (forall tx w1 worked w2, Driver.pool_Begin w = (inr tx, w1) ->
     fn tx w1 = (Ret worked, w2) ->
     exists returned w3 fin,
       ExecTx c fn w = (Ret returned, w3) /\
       trace w3 = trace w2 ++ [fin] /\
       (match worked with Some _ => fin = EvRollback | None => fin = EvCommit end) /\
       finishes (trace w3) = finishes (trace w2) ++ [fin] /\
       pending w3 = NoTx /\
       (forall work_events, trace w2 = trace w1 ++ work_events ->
          trace w3 = trace w ++ [EvBegin] ++ work_events ++ [fin])).
Proof.
  intros Hc. split.
  - intros err w1 Hb. split; [now apply ExecTx_begin_failed|].
    destruct (pool_Begin_trace w w1 _ Hb) as (T & C & P). auto.
  - intros tx w1 worked w2 Hb Hf.
    pose proof (ExecTx_after_work c fn Hc w w1 w2 tx worked Hb Hf) as E.
    destruct (pool_Begin_trace w w1 _ Hb) as (T & _ & _).
    destruct worked as [err|].
    + destruct (tx_Rollback_trace w2) as (Tr & Pr & _).
      destruct (Driver.tx_Rollback w2) as [rolled w3] eqn:R; simpl in Tr, Pr.
      exists (match rolled with
              | Some rbErr => Some (New ("tx failed: " +:+ Error err +:+
                                         ", rollback failed: " +:+ Error rbErr))
              | None => Some err
              end), w3, EvRollback.
      split; [destruct rolled; exact E|].
      repeat split; try assumption.
      * unfold finishes. rewrite Tr, List.filter_app. reflexivity.
      * intros evs Hev. rewrite Tr, Hev, T. now rewrite <- !app_assoc.
    + destruct (tx_Commit_trace w2) as (Tr & Pr).
      destruct (Driver.tx_Commit w2) as [done w3] eqn:R; simpl in Tr, Pr.
      exists (match done with
              | Some ce => Some (Errorf_w "failed to commit transaction: " ce)
              | None => None
              end), w3, EvCommit.
      split; [destruct done; exact E|].
      repeat split; try assumption.
      * unfold finishes. rewrite Tr, List.filter_app. reflexivity.
      * intros evs Hev. rewrite Tr, Hev, T. now rewrite <- !app_assoc.
Qed.

Lemma ExecTx_ends_transaction_once_witness :
  exists returned w3,
    ExecTx Sample.pg Sample.failing_work Sample.fresh = (Ret returned, w3) /\
    finishes (trace w3) = [EvRollback].
Proof.
  destruct (ExecTx_ends_transaction_once Sample.pg Sample.failing_work Sample.fresh)
    as [_ H]; [vm_compute; eauto|].
  destruct (H Driver.TheTx (snd (Driver.pool_Begin Sample.fresh))
              (Some (New "insufficient funds")) (snd (Driver.pool_Begin Sample.fresh)))
    as (returned & w3 & fin & E & _ & F & Fi & _); [reflexivity | reflexivity |].
  exists returned, w3. split; [exact E|]. rewrite Fi, F. reflexivity.
Defined.

(** ** What the driver calls leave untouched *)

Lemma draw_frame (w : World) :
  committed (snd (draw w)) = committed w /\ pending (snd (draw w)) = pending w /\
  trace (snd (draw w)) = trace w /\ closed (snd (draw w)) = closed w.
Proof. unfold draw. destruct (faults w) as [|f fs]; simpl; auto. Qed.

Lemma acquire_frame (w : World) :
  committed (snd (acquire w)) = committed w /\ pending (snd (acquire w)) = pending w /\
  trace (snd (acquire w)) = trace w /\ closed (snd (acquire w)) = closed w.
Proof.
  unfold acquire. pose proof (draw_frame w) as H.
  destruct (closed w) eqn:C; simpl; [repeat split; auto | rewrite ?C in H; exact H].
Qed.

(** ** Batches *)

Lemma queue_length (queries : list string) (args : list (list Value)) (i0 : nat) :
  length (queue i0 queries args) = length queries.
Proof.
  revert i0. induction queries as [|q queries IH]; intros i0; simpl; [reflexivity|].
  now rewrite IH.
Qed.

Lemma queue_lookup (queries : list string) (args : list (list Value)) (i0 i : nat) (q : string) :
  queries !! i = Some q ->
  queue i0 queries args !! i = Some (Raw q (default [] (args !! (i0 + i)%nat))).
Proof.
  revert i0 i. induction queries as [|q0 queries IH]; intros i0 i; [intros [=]|].
  destruct i as [|i]; simpl.
  - intros [= ->]. rewrite Nat.add_0_r. destruct (args !! i0); reflexivity.
  - intros H. rewrite (IH (S i0) i H). now rewrite Nat.add_succ_r.
Qed.

Lemma run_batch_spec (b : list Stmt) :
  forall st w rs fin w2,
    Driver.run_batch b st w = (rs, fin, w2) ->
    trace w2 = trace w ++ map EvBatchStmt (take (length rs) b) /\
    committed w2 = committed w /\ closed w2 = closed w /\
    ((is_Some fin /\ rs = replicate (length b) None) \/
     (fin = None /\ exists k cause,
         rs = replicate k None ++ [Some cause] /\ (k < length b)%nat)).
Proof.
  induction b as [|s b IH]; intros st w rs fin w2; simpl.
  - intros [= <- <- <-]. simpl. rewrite app_nil_r.
    split; [reflexivity|]. split; [reflexivity|]. split; [reflexivity|]. left. eauto.
  - pose proof (draw_frame (log (EvBatchStmt s) w)) as (C & _ & T & Cl).
    destruct (draw (log (EvBatchStmt s) w)) as [[e|] w1]; simpl in C, T, Cl.
    + intros [= <- <- <-]. simpl.
      split; [assumption|]. split; [assumption|]. split; [assumption|].
      right. split; [reflexivity|]. exists 0%nat, e. split; [reflexivity | lia].
    + destruct (run_stmt s st) as [e|st'].
      * intros [= <- <- <-]. simpl.
        split; [assumption|]. split; [assumption|]. split; [assumption|].
        right. split; [reflexivity|]. exists 0%nat, e. split; [reflexivity | lia].
      * destruct (Driver.run_batch b st' w1) as [[rs' fin'] w2'] eqn:R.
        intros [= <- <- <-].
        destruct (IH _ _ _ _ _ R) as (T' & C' & Cl' & D).
        simpl. rewrite T', T. simpl. rewrite <- app_assoc. simpl.
        split; [reflexivity|]. split; [congruence|]. split; [congruence|].
        destruct D as [[F ->]|[-> (k & cause & -> & Hk)]].
        -- left. split; [assumption | reflexivity].
        -- right. split; [reflexivity|]. exists (S k), cause. split; [reflexivity | lia].
Qed.

Lemma pull_all_ok (n i : nat) (rest : list (option error)) (a : option error) :
  pull n i (Driver.mkBatchResults (replicate n None ++ rest) a) = None.
Proof. revert i. induction n as [|n IH]; intros i; simpl; [reflexivity | apply IH]. Qed.

Lemma pull_first_failure (k n i : nat) (cause : error)
      (rest : list (option error)) (a : option error) :
  (k < n)%nat ->
  pull n i (Driver.mkBatchResults (replicate k None ++ Some cause :: rest) a)
  = Some (Errorf_w ("error in batch query " +:+ fmt_d (Z.of_nat (i + k)) +:+ ": ") cause).
Proof.
  revert n i. induction k as [|k IH]; intros n i Hk; destruct n as [|n]; try lia; simpl.
  - now rewrite Nat.add_0_r.
  - rewrite IH by lia. now rewrite Nat.add_succ_r.
Qed.

(** C9. [ExecBatch] queues every statement, in order, into one batch
    (statement [i] with [args[i]], or without arguments when there is none)
    and sends it once.  Results are pulled in that order: when statement [k]
    is the first to fail, the statements before it succeeded, the server
    ran none after it, and the error returned is "error in batch query k"
    around the failure; an empty batch returns no error. *)
Theorem ExecBatch_first_failure
        (c : Client) (queries : list string) (args : list (list Value)) (w : World) :
  is_Some (pool c) ->
  let batch := queue 0 queries args in
  length batch = length queries /\
  (forall i query, queries !! i = Some query ->
     batch !! i = Some (Raw query (default [] (args !! i)))) /\
  exists returned w' reached,
    ExecBatch c queries args w = (Ret returned, w') /\
    trace w' = trace w ++ EvSendBatch batch :: map EvBatchStmt (take reached batch) /\
    (queries = [] -> returned = None) /\
    match returned with
    | None => reached = length batch
    | Some err =>
        exists k cause,
          err = Errorf_w ("error in batch query " +:+ fmt_d (Z.of_nat k) +:+ ": ") cause /\
          (k < length batch)%nat /\
          ((reached = S k /\
            exists br, Driver.pool_SendBatch batch w = (br, w') /\
                       Driver.outcomes br = replicate k None ++ [Some cause])
           \/ (reached = 0%nat /\ k = 0%nat /\ acquire (log (EvSendBatch batch) w) = (Some cause, w')))
    end.
Proof.
  intros [p Hp] batch.
  split; [apply queue_length|].
  split; [intros i q H; apply (queue_lookup queries args 0 i q H)|].
  unfold ExecBatch, bind, on_pool, lift, ret. rewrite Hp. fold batch.
  unfold Driver.pool_SendBatch.
  pose proof (acquire_frame (log (EvSendBatch batch) w)) as (C & _ & T & _).
  destruct (acquire (log (EvSendBatch batch) w)) as [[e|] w1] eqn:A; simpl in C, T.
  - (* no connection: every result is this failure *)
    destruct batch as [|s b] eqn:B.
    + exists None, w1, 0%nat. simpl. repeat split; auto.
    + exists (Some (Errorf_w ("error in batch query " +:+ fmt_d (Z.of_nat 0) +:+ ": ") e)),
             w1, 0%nat.
      simpl. repeat split; auto.
      * intros ->. discriminate B.
      * exists 0%nat, e. repeat split; [lia|]. right. auto.
  - destruct (Driver.run_batch batch (committed w1) w1) as [[rs fin] w2] eqn:R.
    destruct (run_batch_spec _ _ _ _ _ _ R) as (T2 & _ & _ & D).
    destruct D as [[[st ->] ->]|[-> (k & cause & -> & Hk)]].
    + exists None, (set_committed st w2), (length batch).
      split; [|split; [|split]].
      * f_equal. f_equal. rewrite <- (app_nil_r (replicate _ _)). apply pull_all_ok.
      * simpl. rewrite T2, T. simpl. rewrite length_replicate, <- app_assoc. reflexivity.
      * reflexivity.
      * reflexivity.
    + exists (Some (Errorf_w ("error in batch query " +:+ fmt_d (Z.of_nat k) +:+ ": ") cause)),
             w2, (S k).
      split; [|split; [|split]].
      * f_equal. f_equal. apply (pull_first_failure k (length batch) 0 cause [] _ Hk).
      * rewrite T2, T. simpl. rewrite length_app, length_replicate. simpl.
        rewrite Nat.add_1_r, <- app_assoc. reflexivity.
      * intros ->. subst batch. simpl in Hk. lia.
      * exists k, cause. repeat split; [assumption|]. left. split; [reflexivity|].
        eexists. split; [reflexivity|]. reflexivity.
Qed.

Lemma ExecBatch_first_failure_witness :
  exists w',
    ExecBatch Sample.pg ["INSERT a"; "INSERT b"; "UPDATE c"] [[VStr "x"]]
              (set_faults [None; None; Some (New "syntax error")] Sample.fresh)
    = (Ret (Some (Errorf_w "error in batch query 1: " (New "syntax error"))), w').
Proof.
  destruct (ExecBatch_first_failure Sample.pg ["INSERT a"; "INSERT b"; "UPDATE c"] [[VStr "x"]]
              (set_faults [None; None; Some (New "syntax error")] Sample.fresh))
    as (_ & _ & returned & w' & reached & E & _); [vm_compute; eauto|].
  exists w'. rewrite E. vm_compute in E. injection E as E1 E2. rewrite <- E1. reflexivity.
Defined.

(** ** Ordering by version *)

#[local] Instance by_version_trans : Transitive by_version.
Proof. intros a b c. unfold by_version. lia. Qed.

#[local] Instance by_version_total : Total by_version.
Proof. intros a b. unfold by_version. lia. Qed.

#[local] Instance by_Version_trans : Transitive by_Version.
Proof. intros a b c. unfold by_Version. lia. Qed.

#[local] Instance by_Version_total : Total by_Version.
Proof. intros a b. unfold by_Version. lia. Qed.

(** The last row in ascending order carries the highest version. *)
Lemma last_sorted_highest (l : list Row) (r : Row) :
  r ∈ l -> (forall r', r' ∈ l -> row_version r' <= row_version r) ->
  exists r0, last (merge_sort by_version l) = Some r0 /\ r0 ∈ l /\
             row_version r0 = row_version r.
Proof.
  intros Hin Hmax.
  pose proof (merge_sort_Permutation by_version l) as P.
  pose proof (StronglySorted_merge_sort by_version l) as S.
  destruct (last (merge_sort by_version l)) as [r0|] eqn:L.
  - exists r0. split; [reflexivity|].
    apply last_Some in L as [front E]. rewrite E in P, S.
    assert (r0 ∈ l) as H0 by (rewrite <- P; set_solver).
    split; [assumption|].
    apply Z.le_antisymm; [now apply Hmax|].
    rewrite <- P in Hin. apply elem_of_app in Hin as [Hf|Hl].
    + apply (StronglySorted_app_1_elem_of by_version front [r0] r r0 S Hf). set_solver.
    + apply list_elem_of_singleton in Hl. subst. lia.
  - apply last_None in L. rewrite L in P. rewrite <- P in Hin. set_solver.
Qed.

(** ** Rolling back the last migration *)

Lemma acquire_log (e : Event) (w : World) :
  acquire (log e w) = (fst (acquire w), log e (snd (acquire w))).
Proof.
  unfold acquire, draw, log. destruct w as [st p fs cl ck tr out]; simpl.
  destruct cl; simpl; [reflexivity|]. destruct fs as [|f fs]; reflexivity.
Qed.

Section Rollback.

Variable m : MigrationManager.
Variable rollbacks : gmap Z string.
Hypothesis connected : is_Some (pool (client m)).

(** Every failure of the lookup is answered alike. *)
Lemma rollback_lookup_failed (w w1 : World) (h : Driver.RowHandle) (cause : error) :
  Driver.pool_QueryRow SelectLast w = (h, w1) ->
  Driver.Scan h = inl cause ->
  RollbackLastMigration m rollbacks w
  = (Ret (Some (Errorf_w "error getting last migration: " cause)), w1).
Proof.
  intros Hq Hs. destruct connected as [p Hp].
  unfold RollbackLastMigration, QueryRow, bind, on_pool, lift, ret.
  rewrite Hp, Hq, Hs. reflexivity.
Qed.

Lemma lookup_on_ledger (w w1 : World) (l : list Row) :
  acquire w = (None, w1) -> ledger (committed w) = Some l ->
  Driver.pool_QueryRow SelectLast w
  = (inr (last (merge_sort by_version l)), log (EvQueryRow SelectLast) w1).
Proof.
  intros Ha Hl. unfold Driver.pool_QueryRow. rewrite acquire_log, Ha. simpl.
  pose proof (acquire_frame w) as (C & _). rewrite Ha in C. simpl in C.
  rewrite C, Hl. destruct (last (merge_sort by_version l)); reflexivity.
Qed.

End Rollback.

(** C6 as the code has it.  On an empty ledger [RollbackLastMigration]
    returns the error it builds for any failure of its lookup, "error
    getting last migration: " around the cause; the cause here is the
    driver's no-rows error, which is all that tells this case from another
    failed lookup.  No transaction is begun, no statement is run in one, and
    the store is unchanged. *)
Theorem rollback_on_empty_ledger
        (m : MigrationManager) (rollbacks : gmap Z string) (w w1 : World) :
  is_Some (pool (client m)) ->
  acquire w = (None, w1) ->
  ledger (committed w) = Some [] ->
  (forall w0 w2 h cause,
     Driver.pool_QueryRow SelectLast w0 = (h, w2) -> Driver.Scan h = inl cause ->
     RollbackLastMigration m rollbacks w0
     = (Ret (Some (Errorf_w "error getting last migration: " cause)), w2)) /\
  exists w',
    RollbackLastMigration m rollbacks w
    = (Ret (Some (Errorf_w "error getting last migration: " ErrNoRows)), w') /\
    lookup_failure (Errorf_w "error getting last migration: " ErrNoRows) /\
    Is (Errorf_w "error getting last migration: " ErrNoRows) ErrNoRows /\
    trace w' = trace w ++ [EvQueryRow SelectLast] /\
    tx_statements (trace w') = tx_statements (trace w) /\
    committed w' = committed w /\ pending w' = pending w.
Proof.
  intros Hc Ha Hl. split.
  - intros w0 w2 h cause Hq Hs. now apply rollback_lookup_failed with (h := h).
  - pose proof (lookup_on_ledger w w1 [] Ha Hl) as Q.
    change (last (merge_sort by_version [])) with (@None Row) in Q.
    pose proof (acquire_frame w) as (C & P & T & _). rewrite Ha in C, P, T. simpl in C, P, T.
    exists (log (EvQueryRow SelectLast) w1).
    split; [now apply rollback_lookup_failed with (h := inr None)|].
    split; [now exists ErrNoRows|].
    split; [apply Is_Errorf_w|].
    simpl. rewrite T. split; [reflexivity|].
    split; [unfold tx_statements; rewrite omap_app; simpl; apply app_nil_r|].
    split; assumption.
Qed.

Lemma rollback_on_empty_ledger_witness :
  fst (RollbackLastMigration Sample.manager ∅ Sample.empty_ledger)
  = Ret (Some (Wrap "error getting last migration: no rows in result set" ErrNoRows)).
Proof.
  destruct (rollback_on_empty_ledger Sample.manager ∅ Sample.empty_ledger Sample.empty_ledger)
    as (_ & w' & E & _); [vm_compute; eauto | reflexivity | reflexivity |].
  rewrite E. reflexivity.
Defined.

(** C6, as stated, fails: the error returned on an empty ledger is not a
    condition of its own.  It is the lookup failure, the same wrapper that a
    missing ledger table or an unreachable server gets, with the driver's
    error inside. *)
Lemma rollback_empty_ledger_error_is_lookup_failure :
  RollbackLastMigration Sample.manager ∅ Sample.empty_ledger
  = (Ret (Some (Wrap "error getting last migration: no rows in result set" ErrNoRows)),
     log (EvQueryRow SelectLast) Sample.empty_ledger) /\
  lookup_failure (Wrap "error getting last migration: no rows in result set" ErrNoRows) /\
  fst (RollbackLastMigration Sample.manager ∅ Sample.fresh)
  = Ret (Some (Wrap "error getting last migration: relation migrations does not exist"
                    ErrNoTable)) /\
  lookup_failure (Wrap "error getting last migration: relation migrations does not exist"
                       ErrNoTable) /\
  fst (RollbackLastMigration Sample.manager ∅ Sample.three_applied_unreachable)
  = Ret (Some (Wrap "error getting last migration: connection refused"
                    (New "connection refused"))) /\
  lookup_failure (Wrap "error getting last migration: connection refused"
                       (New "connection refused")).
Proof.
  split; [reflexivity|]. split; [now exists ErrNoRows|].
  split; [reflexivity|]. split; [now exists ErrNoTable|].
  split; [reflexivity|]. now exists (New "connection refused").
Qed.

(** C7. When the highest version in the ledger has no entry in the rollback
    mapping, [RollbackLastMigration] returns "no rollback for migration
    <version>".  Its only call on the driver was the lookup of the last row:
    no transaction is begun, no statement is run, no row is deleted; ledger
    and schema are as before. *)
Theorem rollback_without_mapping
        (m : MigrationManager) (rollbacks : gmap Z string)
        (w w1 : World) (l : list Row) (r : Row) :
  is_Some (pool (client m)) ->
  acquire w = (None, w1) ->
  ledger (committed w) = Some l ->
  r ∈ l ->
  (forall r', r' ∈ l -> row_version r' <= row_version r) ->
  rollbacks !! row_version r = None ->
  exists w',
    RollbackLastMigration m rollbacks w
    = (Ret (Some (New ("no rollback for migration " +:+ fmt_d (row_version r)))), w') /\
    trace w' = trace w ++ [EvQueryRow SelectLast] /\
    tx_statements (trace w') = tx_statements (trace w) /\
    finishes (trace w') = finishes (trace w) /\
    committed w' = committed w /\ pending w' = pending w.
Proof.
  intros [p Hp] Ha Hl Hin Hmax Hno.
  destruct (last_sorted_highest l r Hin Hmax) as (r0 & L & _ & V).
  pose proof (lookup_on_ledger w w1 l Ha Hl) as Q. rewrite L in Q.
  pose proof (acquire_frame w) as (C & P & T & _). rewrite Ha in C, P, T. simpl in C, P, T.
  exists (log (EvQueryRow SelectLast) w1).
  split.
  - unfold RollbackLastMigration, QueryRow, bind, on_pool, lift, ret.
    rewrite Hp, Q. simpl. rewrite V, Hno. reflexivity.
  - simpl. rewrite T. split; [reflexivity|].
    split; [unfold tx_statements; rewrite omap_app; simpl; apply app_nil_r|].
    split; [unfold finishes; rewrite List.filter_app; simpl; apply app_nil_r|].
    split; assumption.
Qed.

Lemma rollback_without_mapping_witness :
  fst (RollbackLastMigration Sample.manager {[ 1 := "DROP TABLE users" ]} Sample.three_applied)
  = Ret (Some (New "no rollback for migration 3")) /\
  committed (snd (RollbackLastMigration Sample.manager {[ 1 := "DROP TABLE users" ]}
                                        Sample.three_applied))
  = committed Sample.three_applied.
Proof.
  destruct (rollback_without_mapping Sample.manager {[ 1 := "DROP TABLE users" ]}
              Sample.three_applied Sample.three_applied
              [Sample.r1; Sample.r2; Sample.r3] Sample.r3)
    as (w' & E & _ & _ & _ & C & _).
  - vm_compute. eauto.
  - reflexivity.
  - reflexivity.
  - set_solver.
  - intros r' H. repeat (apply elem_of_cons in H as [->|H]); [vm_compute; discriminate ..|].
    set_solver.
  - reflexivity.
  - rewrite E. split; [reflexivity | exact C].
Defined.

(** ** Loading migrations from a directory *)

Section Load.

Variable fs : Files.FS.
Variable migrationsPath : string.

(** The loop appends, in the order of the listing, one migration for every
    recognised entry and nothing for the others. *)
Lemma load_entries_spec (entries : list Files.DirEntry) :
  forall (migrations : list Migration) (w : World),
    readable fs migrationsPath entries ->
    exists loaded w',
      load_entries fs migrationsPath entries migrations w
      = (Ret (migrations ++ loaded, None), w') /\
      map facts loaded = omap (expected fs migrationsPath) entries /\
      committed w' = committed w /\ trace w' = trace w.
Proof.
  induction entries as [|entry rest IH]; intros migrations w Hread.
  - exists [], w. simpl. rewrite app_nil_r. auto.
  - assert (readable fs migrationsPath rest) as Hrest.
    { intros e v He. apply Hread. now apply list_elem_of_further. }
    assert (recognised entry = None ->
            exists loaded w',
              load_entries fs migrationsPath rest migrations w
              = (Ret (migrations ++ loaded, None), w') /\
              map facts loaded = omap (expected fs migrationsPath) (entry :: rest) /\
              committed w' = committed w /\ trace w' = trace w) as Hskip.
    { intros Hn. destruct (IH migrations w Hrest) as (loaded & w' & E & F & C & T).
      exists loaded, w'. split; [exact E|]. split; [|auto].
      simpl. unfold expected at 1. now rewrite Hn. }
    simpl. unfold recognised, version_of_name in Hskip.
    destruct (Files.IsDir entry) eqn:D; simpl; [now apply Hskip|].
    destruct (Strings.HasSuffix (Files.Name entry) ".sql") eqn:S; simpl; [|now apply Hskip].
    destruct (Strings.SplitN2 (Files.Name entry)) as [|token [|rem [|x xs]]] eqn:Sp;
      try (now apply Hskip).
    destruct (Strings.Atoi token) as [version|] eqn:A; [|now apply Hskip].
    destruct (Hread entry version) as [content Hc].
    { apply list_elem_of_here. }
    { unfold recognised, version_of_name. now rewrite D, S, Sp. }
    rewrite Hc. unfold bind, lift. simpl.
    match goal with
    | |- context [load_entries _ _ rest ?acc ?w0] =>
        destruct (IH acc w0 Hrest) as (loaded & w' & E & F & C & T)
    end.
    exists (mkMigration version (Strings.TrimSuffix (Files.Name entry) ".sql")
                         content (clock w) :: loaded), w'.
    split.
    + rewrite E. rewrite <- app_assoc. reflexivity.
    + split; [|split; [exact C | exact T]].
      simpl. unfold expected at 1, recognised, version_of_name.
      rewrite D, S, Sp, A, Hc. simpl. now rewrite F.
Qed.

Lemma sort_Slice_sorted (migrations : list Migration) :
  StronglySorted Z.le (map Version (sort_Slice migrations)).
Proof.
  unfold sort_Slice.
  pose proof (StronglySorted_merge_sort by_Version migrations) as S.
  induction S as [|a l _ IH F]; simpl; constructor; [exact IH|].
  rewrite List.Forall_forall in F. rewrite List.Forall_forall. intros v Hv.
  apply List.in_map_iff in Hv as (b & <- & Hb).
  apply (F b Hb).
Qed.

Lemma sort_Slice_Permutation (migrations : list Migration) :
  sort_Slice migrations ≡ₚ migrations.
Proof. apply merge_sort_Permutation. Qed.

Lemma LoadMigrationsFromPath_loads (entries : list Files.DirEntry) (w : World) :
  Files.ReadDir fs migrationsPath = inr entries ->
  readable fs migrationsPath entries ->
  exists migrations w',
    LoadMigrationsFromPath fs migrationsPath w = (Ret (migrations, None), w') /\
    map facts migrations ≡ₚ omap (expected fs migrationsPath) entries /\
    StronglySorted Z.le (map Version migrations) /\
    committed w' = committed w.
Proof.
  intros Hd Hr. unfold LoadMigrationsFromPath. rewrite Hd.
  destruct (load_entries_spec entries [] w Hr) as (loaded & w' & E & F & C & _).
  unfold bind at 1. rewrite E. simpl.
  exists (sort_Slice loaded), w'. split; [reflexivity|].
  split; [|split; [apply sort_Slice_sorted | exact C]].
  rewrite <- F. apply Permutation_map, sort_Slice_Permutation.
Qed.

End Load.

(** ** The naming convention of migration files *)

Module StringFacts.
Import Strings.

Lemma substring_0_app (p q : string) : substring 0 (String.length p) (p +:+ q) = p.
Proof.
  induction p as [|c p IH]; [destruct q; reflexivity|].
  rewrite append_cons. simpl. now rewrite IH.
Qed.

Lemma substring_0_all (q : string) : substring 0 (String.length q) q = q.
Proof. induction q as [|c q IH]; simpl; [reflexivity | now rewrite IH]. Qed.

Lemma substring_skip_app (p q : string) (n : nat) :
  substring (String.length p) n (p +:+ q) = substring 0 n q.
Proof.
  induction p as [|c p IH]; [reflexivity|].
  rewrite append_cons. simpl. exact IH.
Qed.

Lemma substring_split (s : string) :
  forall n, (n <= String.length s)%nat ->
            s = substring 0 n s +:+ substring n (String.length s - n) s.
Proof.
  induction s as [|c s IH]; intros n Hn.
  - simpl in Hn. assert (n = 0%nat) as -> by lia. reflexivity.
  - destruct n as [|n].
    + simpl. rewrite append_nil. now rewrite substring_0_all.
    + simpl. rewrite append_cons. f_equal. apply IH. simpl in Hn. lia.
Qed.

(** [HasSuffix] holds exactly of the strings that end with the suffix. *)
Lemma HasSuffix_spec (s suffix : string) :
  HasSuffix s suffix = true <-> exists p, s = p +:+ suffix.
Proof.
  unfold HasSuffix. rewrite andb_true_iff, Nat.leb_le, String.eqb_eq. split.
  - intros [Hl He]. exists (substring 0 (String.length s - String.length suffix) s).
    rewrite (substring_split s (String.length s - String.length suffix)) at 1 by lia.
    f_equal. replace (String.length s - (String.length s - String.length suffix))%nat
      with (String.length suffix) by lia.
    exact He.
  - intros [p ->]. rewrite length_append. split; [lia|].
    replace (String.length p + String.length suffix - String.length suffix)%nat
      with (String.length p) by lia.
    rewrite substring_skip_app. apply substring_0_all.
Qed.

Lemma TrimSuffix_app (p suffix : string) : TrimSuffix (p +:+ suffix) suffix = p.
Proof.
  unfold TrimSuffix.
  assert (HasSuffix (p +:+ suffix) suffix = true) as -> by (apply HasSuffix_spec; eauto).
  rewrite length_append.
  replace (String.length p + String.length suffix - String.length suffix)%nat
    with (String.length p) by lia.
  apply substring_0_app.
Qed.

(** [cut] finds the first underscore. *)
Lemma cut_Some (s before after : string) :
  cut s = Some (before, after) <->
  s = before +:+ String "_" after /\ contains_char "_" before = false.
Proof.
  revert before. induction s as [|c s IH]; intros before; simpl.
  - split; [discriminate|]. intros [H _]. destruct before; discriminate H.
  - destruct (Ascii.eqb_spec c "_") as [->|Hc].
    + split.
      * intros [= <- <-]. split; reflexivity.
      * intros [H Hn]. destruct before as [|d before].
        -- rewrite append_nil in H. now injection H as ->.
        -- rewrite append_cons in H. injection H as <- _. simpl in Hn.
           discriminate Hn.
    + destruct (cut s) as [[b a]|] eqn:E.
      * split.
        -- intros [= <- <-]. rewrite append_cons.
           destruct (proj1 (IH b) eq_refl) as [-> Hn]. split; [reflexivity|].
           simpl. rewrite Hn. destruct (Ascii.eqb_spec c "_"); [contradiction | reflexivity].
        -- intros [H Hn]. destruct before as [|d before].
           ++ rewrite append_nil in H. injection H as -> _. contradiction.
           ++ rewrite append_cons in H. injection H as <- H. simpl in Hn.
              apply orb_false_iff in Hn as [_ Hn].
              pose proof (proj2 (IH before) (conj H Hn)) as F.
              injection F as -> ->. reflexivity.
      * split; [discriminate|]. intros [H Hn]. destruct before as [|d before].
        -- rewrite append_nil in H. injection H as -> _. contradiction.
        -- rewrite append_cons in H. injection H as <- H. simpl in Hn.
           apply orb_false_iff in Hn as [_ Hn].
           pose proof (proj2 (IH before) (conj H Hn)) as F. discriminate F.
Qed.

Lemma cut_None (s : string) : cut s = None <-> contains_char "_" s = false.
Proof.
  induction s as [|c s IH]; simpl; [tauto|].
  destruct (Ascii.eqb_spec c "_") as [->|Hc]; simpl; [split; discriminate|].
  destruct (cut s) as [[b a]|]; [|tauto].
  split; [discriminate|]. intros H. apply IH in H. discriminate H.
Qed.

(** [SplitN2] yields two parts exactly when there is an underscore. *)
Lemma SplitN2_two (s token rem : string) :
  SplitN2 s = [token; rem] <->
  s = token +:+ String "_" rem /\ contains_char "_" token = false.
Proof.
  unfold SplitN2. rewrite <- cut_Some.
  destruct (cut s) as [[b a]|]; split; intros H; try discriminate; congruence.
Qed.

Lemma digits_of_minus_or_plus (c : ascii) (rest : string) (acc : Z) :
  c = "-"%char \/ c = "+"%char -> digits (String c rest) acc = None.
Proof. intros [->| ->]; reflexivity. Qed.

Lemma digits_lower_bound (s : string) :
  forall acc n, 0 <= acc -> digits s acc = Some n -> 0 <= n.
Proof.
  induction s as [|c s IH]; intros acc n Ha; simpl.
  - intros [= <-]. exact Ha.
  - destruct (is_digit c) eqn:D; [|discriminate].
    apply IH. unfold is_digit in D. apply andb_true_iff in D as [D1 D2].
    apply Z.leb_le in D1. lia.
Qed.

(** [Atoi] accepts an optional sign, then digits, within the range of
    [int]: negative versions parse. *)
Lemma Atoi_Some (s : string) (v : Z) :
  Atoi s = Some v <->
  exists body n,
    body <> EmptyString /\ digits body 0 = Some n /\ min_int <= v <= max_int /\
    ((s = body /\ v = n) \/ (s = String "+" body /\ v = n)
     \/ (s = String "-" body /\ v = - n)).
Proof.
  unfold Atoi. destruct s as [|c rest].
  { split; [discriminate|]. intros (body & n & Hb & _ & _ & [[<- _]|[[H _]|[H _]]]);
      [contradiction | discriminate H | discriminate H]. }
  assert (forall body (negative : bool),
             match body with
             | EmptyString => None
             | _ => match digits body 0 with
                    | None => None
                    | Some n => let v0 := if negative then - n else n in
                                if (min_int <=? v0) && (v0 <=? max_int) then Some v0 else None
                    end
             end = Some v <->
             exists n, body <> EmptyString /\ digits body 0 = Some n /\ min_int <= v <= max_int /\
                       v = (if negative then - n else n)) as Core.
  { intros body negative. destruct body as [|d body].
    - split; [discriminate|]. intros (n & Hb & _). contradiction.
    - destruct (digits (String d body) 0) as [n|].
      + simpl. destruct (Z.leb_spec min_int (if negative then - n else n));
          destruct (Z.leb_spec (if negative then - n else n) max_int); simpl;
          split; try discriminate.
        * intros [= <-]. exists n. repeat split; auto; discriminate.
        * intros (n' & _ & [= <-] & _ & ->). reflexivity.
        * intros (n' & _ & [= <-] & [_ ?] & ->). lia.
        * intros (n' & _ & [= <-] & [? _] & ->). lia.
        * intros (n' & _ & [= <-] & [? _] & ->). lia.
      + split; [discriminate|]. intros (n & _ & H & _). discriminate H. }
  destruct (Ascii.eqb_spec c "-") as [->|Hm].
  - apply (iff_trans (Core rest true)). split.
    + intros (n & Hb & Hd & Hr & ->). exists rest, n. auto 10.
    + intros (body & n & Hb & Hd & Hr & [[<- _]|[[H _]|[H ->]]]).
      * discriminate Hd.
      * discriminate H.
      * injection H as ->. exists n. auto.
  - destruct (Ascii.eqb_spec c "+") as [->|Hp].
    + apply (iff_trans (Core rest false)). split.
      * intros (n & Hb & Hd & Hr & ->). exists rest, n. auto 10.
      * intros (body & n & Hb & Hd & Hr & [[<- _]|[[H ->]|[H _]]]).
        -- discriminate Hd.
        -- injection H as ->. exists n. auto.
        -- discriminate H.
    + apply (iff_trans (Core (String c rest) false)). split.
      * intros (n & Hb & Hd & Hr & ->). exists (String c rest), n. auto 10.
      * intros (body & n & Hb & Hd & Hr & [[<- ->]|[[H _]|[H _]]]).
        -- exists n. auto.
        -- injection H as -> _. contradiction.
        -- injection H as -> _. contradiction.
Qed.

End StringFacts.

(** An entry is recognised exactly when it is not a directory, its name
    ends in ".sql" and splits at the first underscore into a token that
    [Atoi] accepts, and a remainder. *)
Lemma recognised_spec (entry : Files.DirEntry) (version : Z) :
  recognised entry = Some version <->
  Files.IsDir entry = false /\
  (exists stem, Files.Name entry = stem +:+ ".sql") /\
  exists token rem,
    Files.Name entry = token +:+ String "_" rem /\
    Strings.contains_char "_" token = false /\
    Strings.Atoi token = Some version.
Proof.
  unfold recognised, version_of_name.
  rewrite <- StringFacts.HasSuffix_spec.
  destruct (Files.IsDir entry); [split; [discriminate | intros [H _]; discriminate H]|].
  destruct (Strings.HasSuffix (Files.Name entry) ".sql");
    [|split; [discriminate | intros (_ & H & _); discriminate H]].
  split.
  - intros H. split; [reflexivity|]. split; [reflexivity|].
    destruct (Strings.SplitN2 (Files.Name entry)) as [|token [|rem [|x xs]]] eqn:Sp;
      try discriminate H.
    exists token, rem. apply StringFacts.SplitN2_two in Sp as [-> Hn]. auto.
  - intros (_ & _ & token & rem & Hname & Hn & Ha).
    rewrite (proj2 (StringFacts.SplitN2_two _ token rem) (conj Hname Hn)). exact Ha.
Qed.

(** C5 as the code has it.  For every directory listing whose recognised
    files can be read, [LoadMigrationsFromPath] returns no error and exactly
    one migration per recognised entry (version from the leading token,
    description the name without ".sql", body the content of the file), in
    ascending order of version.  An entry is recognised when it is not a
    directory, its name ends in ".sql" and the part before its first
    underscore is a decimal integer that fits [int], with an optional sign:
    negative versions are kept too.  Every other entry is skipped without
    an error.  In the scenario (001_create_users.sql, abc_bad.sql,
    002_add_status.sql) the result has the versions 1 and 2, in that order. *)
Theorem LoadMigrationsFromPath_keeps_recognised
        (fs : Files.FS) (migrationsPath : string)
        (entries : list Files.DirEntry) (w : World) :
  Files.ReadDir fs migrationsPath = inr entries ->
  readable fs migrationsPath entries ->
  (exists migrations w',
      LoadMigrationsFromPath fs migrationsPath w = (Ret (migrations, None), w') /\
      map facts migrations ≡ₚ omap (expected fs migrationsPath) entries /\
      StronglySorted Z.le (map Version migrations)) /\
  (forall entry version,
      recognised entry = Some version <->
      Files.IsDir entry = false /\
      (exists stem, Files.Name entry = stem +:+ ".sql") /\
      exists token rem,
        Files.Name entry = token +:+ String "_" rem /\
        Strings.contains_char "_" token = false /\
        exists body n,
          body <> EmptyString /\ Strings.digits body 0 = Some n /\
          min_int <= version <= max_int /\
          ((token = body /\ version = n) \/ (token = String "+" body /\ version = n)
           \/ (token = String "-" body /\ version = - n))) /\
  (exists first second w',
      LoadMigrationsFromPath Sample.scenario_fs "migrations" Sample.fresh
      = (Ret ([first; second], None), w') /\
      Version first = 1 /\ Version second = 2).
Proof.
  intros Hd Hr. split; [|split].
  - destruct (LoadMigrationsFromPath_loads fs migrationsPath entries w Hd Hr)
      as (migrations & w' & E & P & S & _).
    exists migrations, w'. auto.
  - intros entry version. rewrite recognised_spec.
    split.
    + intros (D & S & token & rem & N & U & A).
      apply StringFacts.Atoi_Some in A. eauto 10.
    + intros (D & S & token & rem & N & U & A).
      apply StringFacts.Atoi_Some in A. eauto 10.
  - vm_compute. eauto 10.
Qed.

Lemma LoadMigrationsFromPath_keeps_recognised_witness :
  exists migrations w',
    LoadMigrationsFromPath Sample.scenario_fs "migrations" Sample.fresh
    = (Ret (migrations, None), w') /\
    StronglySorted Z.le (map Version migrations).
Proof.
  destruct (LoadMigrationsFromPath_keeps_recognised
              Sample.scenario_fs "migrations" Sample.scenario_entries Sample.fresh)
    as ((migrations & w' & E & _ & S) & _).
  - reflexivity.
  - intros entry version _ _. eexists. reflexivity.
  - exists migrations, w'. split; [exact E | exact S].
Defined.

(** C5, as stated, fails: a file whose leading token is "-1" does not parse
    as a non-negative integer, yet it is kept, with version -1. *)
Lemma LoadMigrationsFromPath_keeps_negative_version :
  fst (LoadMigrationsFromPath Sample.signed_fs "migrations" Sample.fresh)
  = Ret ([mkMigration (-1) "-1_down" "DROP TABLE users" 0], None).
Proof. vm_compute. reflexivity. Qed.

(** ** Applying migrations *)

Ltac crunch :=
  repeat (simpl;
          match goal with
          | |- context [match ?x with _ => _ end] => is_var x; destruct x
          | |- context [if has_version ?v ?l then _ else _] =>
              destruct (has_version v l) eqn:?
          end).

Section Manager.

Variable m : MigrationManager.
Hypothesis connected : is_Some (pool (client m)).

Lemma InitMigrationTable_spec (w : World) :
  exists r w',
    InitMigrationTable m w = (Ret r, w') /\ closed w' = closed w /\
    trace w' = trace w ++ [EvExec CreateMigrationsTable] /\
    schema (committed w') = schema (committed w) /\
    match r with
    | None => ledger (committed w') = Some (default [] (ledger (committed w)))
    | Some _ => committed w' = committed w
    end.
Proof.
  destruct connected as [p Hp].
  unfold InitMigrationTable, Exec, bind, on_pool, lift, ret. rewrite Hp.
  unfold Driver.pool_Exec, acquire, draw, log, set_faults, set_committed.
  destruct w as [[led sch] pd fs cl ck tr out].
  crunch; eexists _, _; repeat (split; [reflexivity|]); reflexivity.
Qed.

Lemma scan_rows_spec (rows : list Row) :
  forall (result : gmap Z Z) (w : World),
  exists applied r w',
    scan_rows rows result w = (Ret (applied, r), w') /\
    closed w' = closed w /\ committed w' = committed w /\ trace w' = trace w /\
    (r = None ->
     forall v, is_Some (applied !! v) <-> is_Some (result !! v) \/ In v (versions rows)).
Proof.
  induction rows as [|row rows IH]; intros result w; simpl;
    unfold bind, lift, ret, Driver.rows_Err, Driver.rows_Scan;
    pose proof (draw_frame w) as (C & _ & T & Cl);
    destruct (draw w) as [[e|] w1]; simpl in C, T, Cl.
  - eexists _, _, _. split; [reflexivity|]. repeat (split; [assumption|]). discriminate.
  - eexists _, _, _. split; [reflexivity|]. repeat (split; [assumption|]).
    intros _ v. tauto.
  - eexists _, _, _. split; [reflexivity|]. repeat (split; [assumption|]). discriminate.
  - destruct (IH (<[row_version row := row_applied_at row]> result) w1)
      as (applied & r & w' & E & Cl' & C' & T' & D).
    exists applied, r, w'. split; [exact E|].
    split; [congruence|]. split; [congruence|]. split; [congruence|].
    intros Hr v. rewrite (D Hr v).
    destruct (decide (row_version row = v)) as [->|Hne].
    + rewrite lookup_insert_eq. simpl.
      split; [intros _; right; left; reflexivity | intros _; left; eauto].
    + rewrite lookup_insert_ne by assumption. simpl. tauto.
Qed.

Lemma GetAppliedMigrations_spec (w : World) :
  exists applied r w',
    GetAppliedMigrations m w = (Ret (applied, r), w') /\
    closed w' = closed w /\ committed w' = committed w /\
    trace w' = trace w ++ [EvQuery SelectApplied] /\
    (r = None ->
     is_Some (ledger (committed w)) /\
     forall v, is_Some (applied !! v) <-> In v (ledger_versions (committed w))).
Proof.
  destruct connected as [p Hp].
  unfold GetAppliedMigrations, QueryRows, bind, on_pool, lift, ret. rewrite Hp.
  unfold Driver.pool_Query. rewrite acquire_log.
  pose proof (acquire_frame w) as (C & _ & T & Cl).
  destruct (acquire w) as [[e|] w1]; simpl in C, T, Cl |- *.
  - eexists _, _, _. split; [reflexivity|]. simpl.
    split; [assumption|]. split; [assumption|]. split; [now rewrite T|]. discriminate.
  - rewrite C. unfold ledger_versions. destruct (ledger (committed w)) as [l|] eqn:L; simpl.
    + destruct (scan_rows_spec (merge_sort by_version l) ∅ (log (EvQuery SelectApplied) w1))
        as (applied & r & w' & E & Cl' & C' & T' & D).
      exists applied, r, w'. split; [exact E|].
      split; [simpl in Cl'; congruence|]. split; [simpl in C'; congruence|].
      split; [simpl in T'; congruence|].
      intros Hr. split; [eauto|]. intros v. rewrite (D Hr v), lookup_empty.
      unfold versions. split.
      * intros [[x Hx]|H]; [discriminate Hx|].
        eapply Permutation_in; [|exact H].
        apply Permutation_map, merge_sort_Permutation.
      * intros H. right. eapply Permutation_in; [|exact H].
        apply Permutation_map. symmetry. apply merge_sort_Permutation.
    + eexists _, _, _. split; [reflexivity|]. simpl.
      split; [assumption|]. split; [assumption|]. split; [now rewrite T|]. discriminate.
Qed.

Lemma ApplyMigration_spec (mig : Migration) (w : World) :
  exists r w' evs,
    ApplyMigration m mig w = (Ret r, w') /\ closed w' = closed w /\
    trace w' = trace w ++ evs /\
    match r with
    | None =>
        executed_bodies evs = [SQL mig] /\ applied_order evs = [Version mig] /\
        exists l t,
          ledger (committed w) = Some l /\ has_version (Version mig) l = false /\
          committed w' = mkStore (Some (l ++ [mkRow (Version mig) (Description mig) t]))
                                 (schema (committed w) ++ [(SQL mig, [])])
    | Some _ =>
        committed w' = committed w /\
        ((executed_bodies evs = [] /\ applied_order evs = []) \/
         (executed_bodies evs = [SQL mig] /\
          (applied_order evs = [] \/ applied_order evs = [Version mig])))
    end.
Proof.
  destruct connected as [p Hp].
  unfold ApplyMigration, ExecTx, bind, on_pool, lift, ret. rewrite Hp.
  unfold Driver.pool_Begin, Driver.tx_Exec, Driver.tx_Commit, Driver.tx_Rollback,
    acquire, draw, now, log, set_pending, set_faults, set_committed.
  destruct w as [[led sch] pd fs cl ck tr out].
  crunch;
    (eexists _, _, _; split; [reflexivity|]; simpl; split; [reflexivity|];
     split; [rewrite <- ?app_assoc; reflexivity|]; simpl;
     first [ split; [reflexivity|]; split; [reflexivity|]; eexists _, _;
             split; [reflexivity|]; split; [eassumption || reflexivity | reflexivity]
           | split; [reflexivity|];
             first [ left; split; reflexivity
                   | right; split; [reflexivity|];
                     first [left; reflexivity | right; reflexivity] ] ]).
Qed.

Section Loop.

Variable applied : gmap Z Z.
Variable keep : Migration -> bool.
Hypothesis keep_spec : forall mig, keep mig = true <-> applied !! Version mig = None.

(** The loop runs the migrations that are not in [applied], in the order
    of the slice, up to the first failure. *)
Lemma migrate_loop_spec (migrations : list Migration) :
  forall w,
  exists r w' k j,
    migrate_loop m applied migrations w = (Ret r, w') /\
    (j <= k <= length (List.filter keep migrations))%nat /\
    executed_bodies (trace w')
    = executed_bodies (trace w) ++ map SQL (take k (List.filter keep migrations)) /\
    applied_order (trace w')
    = applied_order (trace w) ++ map Version (take j (List.filter keep migrations)) /\
    closed w' = closed w /\
    (is_Some (ledger (committed w)) -> is_Some (ledger (committed w'))) /\
    (List.filter keep migrations = [] -> committed w' = committed w) /\
    (r = None ->
     k = length (List.filter keep migrations) /\
     j = length (List.filter keep migrations) /\
     schema (committed w')
     = schema (committed w) ++ map (fun mig => (SQL mig, [])) (List.filter keep migrations) /\
     ledger_versions (committed w')
     = ledger_versions (committed w) ++ map Version (List.filter keep migrations)).
Proof.
  induction migrations as [|mig rest IH]; intros w.
  - exists None, w, 0%nat, 0%nat. simpl. rewrite !app_nil_r. repeat split; auto.
  - simpl. destruct (keep mig) eqn:K.
    + apply keep_spec in K. rewrite K.
      destruct (ApplyMigration_spec mig w) as (r1 & w1 & evs & E & Cl & T & R).
      unfold bind at 1. rewrite E. destruct r1 as [e|].
      * (* the migration fails: the loop stops *)
        destruct R as (C & B).
        exists (Some e), w1, (length (executed_bodies evs)), (length (applied_order evs)).
        split; [reflexivity|].
        unfold executed_bodies, applied_order in *. rewrite T, !omap_app.
        split; [|split; [|split; [|split; [|split; [|split]]]]].
        -- destruct B as [[-> ->]|[-> [->| ->]]]; simpl; lia.
        -- f_equal. destruct B as [[-> _]|[-> _]]; reflexivity.
        -- f_equal. destruct B as [[_ ->]|[_ [->| ->]]]; reflexivity.
        -- exact Cl.
        -- now rewrite C.
        -- discriminate.
        -- discriminate.
      * (* the migration is applied: its line is printed, the loop goes on *)
        destruct R as (B & O & l & t & L & H & C).
        unfold bind, lift. simpl.
        destruct (IH (print (applied_line mig) w1))
          as (r & w' & k & j & E' & Hk & B' & O' & Cl' & S' & _ & N').
        exists r, w', (S k), (S j). split; [exact E'|].
        simpl in B', O', Cl', S', N'.
        unfold executed_bodies, applied_order in *.
        rewrite T, !omap_app, B, O in *.
        split; [simpl; lia|].
        split; [rewrite B', <- app_assoc; reflexivity|].
        split; [rewrite O', <- app_assoc; reflexivity|].
        split; [congruence|].
        split; [intros _; apply S'; rewrite C; simpl; eauto|].
        split; [discriminate|].
        intros Hr. destruct (N' Hr) as (-> & -> & Sc & Lv).
        split; [reflexivity|]. split; [reflexivity|].
        rewrite Sc, Lv, C. unfold ledger_versions. rewrite L. simpl.
        unfold versions. rewrite map_app, <- !app_assoc. split; reflexivity.
    + assert (is_Some (applied !! Version mig)) as [t Ht].
      { destruct (applied !! Version mig) eqn:A; [eauto|].
        apply keep_spec in A. congruence. }
      rewrite Ht. apply IH.
Qed.

End Loop.

(** When every version of the slice is in [applied], the loop does nothing. *)
Lemma migrate_loop_all_applied (applied : gmap Z Z) (migrations : list Migration) (w : World) :
  (forall mig, In mig migrations -> is_Some (applied !! Version mig)) ->
  migrate_loop m applied migrations w = (Ret None, w).
Proof.
  induction migrations as [|mig rest IH]; intros H; [reflexivity|].
  simpl. destruct (H mig (or_introl eq_refl)) as [t ->].
  apply IH. intros mig' Hin. apply H. now right.
Qed.

End Manager.

(** ** [Migrate] *)

Lemma existsb_eqb_In (v : Z) (l : list Z) : existsb (Z.eqb v) l = true <-> In v l.
Proof.
  rewrite existsb_exists. split.
  - intros (x & Hx & E). apply Z.eqb_eq in E. now subst.
  - intros H. exists v. split; [assumption | apply Z.eqb_refl].
Qed.

Lemma store_eta (st st' : Store) :
  ledger st' = ledger st -> schema st' = schema st -> st' = st.
Proof. destruct st, st'; simpl; congruence. Qed.

Lemma executed_bodies_app (tr evs : list Event) :
  executed_bodies (tr ++ evs) = executed_bodies tr ++ executed_bodies evs.
Proof. apply omap_app. Qed.

Lemma applied_order_app (tr evs : list Event) :
  applied_order (tr ++ evs) = applied_order tr ++ applied_order evs.
Proof. apply omap_app. Qed.

Lemma Migrate_spec (m : MigrationManager) (migrations : list Migration) (w : World) :
  is_Some (pool (client m)) ->
  exists r w' k j,
    Migrate m migrations w = (Ret r, w') /\
    (j <= k <= length (pending_of (committed w) migrations))%nat /\
    executed_bodies (trace w')
    = executed_bodies (trace w) ++ map SQL (take k (pending_of (committed w) migrations)) /\
    applied_order (trace w')
    = applied_order (trace w) ++ map Version (take j (pending_of (committed w) migrations)) /\
    closed w' = closed w /\
    (pending_of (committed w) migrations = [] -> is_Some (ledger (committed w)) ->
     committed w' = committed w) /\
    (r = None ->
     k = length (pending_of (committed w) migrations) /\
     j = length (pending_of (committed w) migrations) /\
     is_Some (ledger (committed w')) /\
     schema (committed w')
     = schema (committed w)
       ++ map (fun mig => (SQL mig, [])) (pending_of (committed w) migrations) /\
     ledger_versions (committed w')
     = ledger_versions (committed w) ++ map Version (pending_of (committed w) migrations)).
Proof.
  intros Hc.
  destruct (InitMigrationTable_spec m Hc w) as (r0 & wa & E0 & Cl0 & T0 & S0 & R0).
  unfold Migrate. unfold bind at 1. rewrite E0.
  assert (executed_bodies (trace wa) = executed_bodies (trace w)) as B0.
  { rewrite T0, executed_bodies_app. apply app_nil_r. }
  assert (applied_order (trace wa) = applied_order (trace w)) as O0.
  { rewrite T0, applied_order_app. apply app_nil_r. }
  destruct r0 as [e|].
  { exists (Some e), wa, 0%nat, 0%nat. split; [reflexivity|]. simpl. rewrite !app_nil_r.
    split; [lia|]. split; [exact B0|]. split; [exact O0|]. split; [exact Cl0|].
    split; [auto | discriminate]. }
  destruct (GetAppliedMigrations_spec m Hc wa) as (applied & r1 & wb & E1 & Cl1 & C1 & T1 & D1).
  unfold bind at 1. rewrite E1.
  assert (executed_bodies (trace wb) = executed_bodies (trace w)) as B1.
  { rewrite T1, executed_bodies_app, B0. apply app_nil_r. }
  assert (applied_order (trace wb) = applied_order (trace w)) as O1.
  { rewrite T1, applied_order_app, O0. apply app_nil_r. }
  assert (is_Some (ledger (committed w)) -> committed wa = committed w) as Same.
  { intros [l Hl]. apply store_eta; [|exact S0]. rewrite R0, Hl. reflexivity. }
  destruct r1 as [e|].
  { exists (Some e), wb, 0%nat, 0%nat. split; [reflexivity|]. simpl. rewrite !app_nil_r.
    split; [lia|]. split; [exact B1|]. split; [exact O1|]. split; [congruence|].
    split; [|discriminate]. intros _ Hl. rewrite C1. now apply Same. }
  destruct (D1 eq_refl) as (Hl & Dom).
  assert (ledger_versions (committed wa) = ledger_versions (committed w)) as LV.
  { unfold ledger_versions. rewrite R0. destruct (ledger (committed w)); reflexivity. }
  rewrite LV in Dom.
  set (keep := fun mig : Migration =>
                 negb (existsb (Z.eqb (Version mig)) (ledger_versions (committed w)))).
  assert (forall mig, keep mig = true <-> applied !! Version mig = None) as Hkeep.
  { intros mig. unfold keep. rewrite negb_true_iff, <- not_true_iff_false, existsb_eqb_In.
    rewrite <- Dom. rewrite <- eq_None_not_Some. reflexivity. }
  destruct (migrate_loop_spec m Hc applied keep Hkeep migrations wb)
    as (r & w' & k & j & E & Hk & B & O & Cl & S & Q & N).
  exists r, w', k, j. split; [exact E|].
  change (pending_of (committed w) migrations) with (List.filter keep migrations).
  rewrite C1 in S, Q, N.
  split; [exact Hk|]. split; [now rewrite B, B1|]. split; [now rewrite O, O1|].
  split; [congruence|].
  split.
  { intros Hp Hw. rewrite (Q Hp). now apply Same. }
  intros Hr. destruct (N Hr) as (-> & -> & Sc & Lv).
  split; [reflexivity|]. split; [reflexivity|].
  split; [apply S; rewrite R0; eauto|].
  split; [now rewrite Sc, S0 | now rewrite Lv, LV].
Qed.

Lemma StronglySorted_map_filter {A} (R : relation Z) (f : A -> Z) (p : A -> bool) (l : list A) :
  StronglySorted R (map f l) -> StronglySorted R (map f (List.filter p l)).
Proof.
  induction l as [|a l IH]; simpl; [auto|].
  intros S. apply StronglySorted_inv in S as [S F].
  destruct (p a); [|auto]. simpl. constructor; [auto|].
  rewrite List.Forall_forall in *. intros v Hv.
  apply List.in_map_iff in Hv as (b & <- & Hb).
  apply List.filter_In in Hb as [Hb _].
  apply F. apply List.in_map_iff. eauto.
Qed.

Lemma In_take {A} (x : A) (k : nat) (l : list A) : In x (take k l) -> In x l.
Proof.
  revert k. induction l as [|a l IH]; intros [|k]; simpl; try tauto.
  intros [->|H]; [now left | right; eauto].
Qed.

Lemma StronglySorted_map_take {A} (R : relation Z) (f : A -> Z) (k : nat) (l : list A) :
  StronglySorted R (map f l) -> StronglySorted R (map f (take k l)).
Proof.
  revert k. induction l as [|a l IH]; intros k; [destruct k; simpl; auto|].
  destruct k as [|k]; simpl; [constructor|].
  intros S. apply StronglySorted_inv in S as [S F].
  constructor; [auto|].
  rewrite List.Forall_forall in *. intros v Hv.
  apply List.in_map_iff in Hv as (b & <- & Hb).
  apply F. apply List.in_map_iff. exists b. split; [reflexivity|].
  eapply In_take. exact Hb.
Qed.

(** C1 as the code has it.  [Migrate] runs the pending migrations (those
    whose version the ledger does not have when it is called) in the order
    of the slice it was given, up to the first failure, and all of them when
    it returns no error; it does not sort.  So the versions are run in
    strictly ascending order when the slice is in strictly ascending order,
    as the slices of [LoadMigrationsFromPath] with distinct versions are. *)
Theorem Migrate_runs_pending_in_input_order
        (m : MigrationManager) (migrations : list Migration) (w : World) :
  is_Some (pool (client m)) ->
  exists r w' k j,
    Migrate m migrations w = (Ret r, w') /\
    (j <= k <= length (pending_of (committed w) migrations))%nat /\
    executed_bodies (trace w')
    = executed_bodies (trace w) ++ map SQL (take k (pending_of (committed w) migrations)) /\
    applied_order (trace w')
    = applied_order (trace w) ++ map Version (take j (pending_of (committed w) migrations)) /\
    (r = None ->
     k = length (pending_of (committed w) migrations) /\
     j = length (pending_of (committed w) migrations)) /\
    (StronglySorted Z.lt (map Version migrations) ->
     StronglySorted Z.lt (map Version (take k (pending_of (committed w) migrations))) /\
     StronglySorted Z.lt (map Version (take j (pending_of (committed w) migrations)))).
Proof.
  intros Hc.
  destruct (Migrate_spec m migrations w Hc) as (r & w' & k & j & E & Hk & B & O & _ & _ & N).
  exists r, w', k, j. split; [exact E|]. split; [exact Hk|].
  split; [exact B|]. split; [exact O|].
  split; [intros Hr; destruct (N Hr) as (? & ? & _); auto|].
  intros S. unfold pending_of.
  split; apply StronglySorted_map_take, StronglySorted_map_filter, S.
Qed.

Lemma Migrate_runs_pending_in_input_order_witness :
  exists r w' k,
    Migrate Sample.manager [Sample.m2; Sample.m1] Sample.fresh = (Ret r, w') /\
    executed_bodies (trace w') = map SQL (take k [Sample.m2; Sample.m1]).
Proof.
  destruct (Migrate_runs_pending_in_input_order
              Sample.manager [Sample.m2; Sample.m1] Sample.fresh)
    as (r & w' & k & j & E & _ & B & _); [vm_compute; eauto|].
  exists r, w', k. split; [exact E | exact B].
Defined.

(** C1, as stated, fails: given version 2 before version 1 and an empty
    applied-set, [Migrate] runs and records version 2 first. *)
Lemma Migrate_follows_unsorted_input :
  exists w',
    Migrate Sample.manager [Sample.m2; Sample.m1] Sample.fresh = (Ret None, w') /\
    executed_bodies (trace w') = [SQL Sample.m2; SQL Sample.m1] /\
    applied_order (trace w') = [2; 1] /\
    ledger_versions (committed w') = [2; 1] /\
    ~ StronglySorted Z.lt (applied_order (trace w')).
Proof.
  eexists. split; [vm_compute; reflexivity|].
  split; [reflexivity|]. split; [reflexivity|]. split; [reflexivity|].
  simpl. intros S. apply StronglySorted_inv in S as [_ F].
  apply Forall_inv in F. lia.
Qed.

Lemma filter_none {A} (p : A -> bool) (l : list A) :
  (forall x, In x l -> p x = false) -> List.filter p l = [].
Proof.
  induction l as [|a l IH]; intros H; simpl; [reflexivity|].
  rewrite (H a (or_introl eq_refl)). apply IH. intros x Hx. apply H. now right.
Qed.

(** After a run without error nothing is pending. *)
Lemma Migrate_leaves_nothing_pending
      (m : MigrationManager) (migrations : list Migration) (w w1 : World) :
  is_Some (pool (client m)) ->
  Migrate m migrations w = (Ret None, w1) ->
  is_Some (ledger (committed w1)) /\ pending_of (committed w1) migrations = [].
Proof.
  intros Hc H.
  destruct (Migrate_spec m migrations w Hc) as (r & w' & k & j & E & _ & _ & _ & _ & _ & N).
  rewrite H in E. injection E as <- <-.
  destruct (N eq_refl) as (_ & _ & L & _ & Lv).
  split; [exact L|].
  unfold pending_of at 1. apply filter_none. intros mig Hin.
  apply negb_false_iff, existsb_eqb_In. rewrite Lv. apply in_or_app.
  destruct (existsb (Z.eqb (Version mig)) (ledger_versions (committed w))) eqn:X.
  - left. now apply existsb_eqb_In.
  - right. apply in_map. unfold pending_of. apply List.filter_In.
    split; [exact Hin | now rewrite X].
Qed.

(** C4.  After a run of [Migrate] without error, a second run on the state
    it left, whatever the driver does then, runs no migration body, writes
    no ledger row and leaves ledger and schema as they were.  In
    particular, with the versions 1, 2 and 3 applied and a driver that does
    not fail, the input of versions 1, 2, 3, 4 runs and records version 4
    only; the three rows are not touched. *)
Theorem Migrate_idempotent
        (m : MigrationManager) (migrations : list Migration) (w w1 : World) :
  is_Some (pool (client m)) ->
  Migrate m migrations w = (Ret None, w1) ->
  (forall plan,
     exists r2 w2,
       Migrate m migrations (set_faults plan w1) = (Ret r2, w2) /\
       executed_bodies (trace w2) = executed_bodies (trace w1) /\
       applied_order (trace w2) = applied_order (trace w1) /\
       committed w2 = committed w1) /\
  (forall (four : list Migration) (l : list Row) (ws : World),
     closed ws = false -> faults ws = [] -> ledger (committed ws) = Some l ->
     map row_version l = [1; 2; 3] ->
     map Version four = [1; 2; 3; 4] ->
     exists ws' fourth t,
       four !! 3%nat = Some fourth /\
       Migrate m four ws = (Ret None, ws') /\
       executed_bodies (trace ws') = executed_bodies (trace ws) ++ [SQL fourth] /\
       applied_order (trace ws') = applied_order (trace ws) ++ [4] /\
       ledger (committed ws') = Some (l ++ [mkRow 4 (Description fourth) t]) /\
       schema (committed ws') = schema (committed ws) ++ [(SQL fourth, [])]).
Proof.
  intros Hc H. split.
  - intros plan.
    destruct (Migrate_leaves_nothing_pending m migrations w w1 Hc H) as (L & P).
    destruct (Migrate_spec m migrations (set_faults plan w1) Hc)
      as (r2 & w2 & k & j & E & _ & B & O & _ & Q & _).
    change (committed (set_faults plan w1)) with (committed w1) in *.
    change (trace (set_faults plan w1)) with (trace w1) in *.
    rewrite P in B, O. rewrite take_nil in B, O. simpl in B, O. rewrite app_nil_r in B, O.
    exists r2, w2. auto.
  - intros four l ws Hcl Hf Hl Hv Hm. destruct Hc as [p Hp].
    destruct l as [|[v1 d1 t1] [|[v2 d2 t2] [|[v3 d3 t3] [|]]]]; try discriminate Hv.
    destruct four as [|[a1 b1 c1 e1] [|[a2 b2 c2 e2] [|[a3 b3 c3 e3] [|[a4 b4 c4 e4] [|]]]]];
      try discriminate Hm.
    simpl in Hv, Hm. injection Hv as -> -> ->. injection Hm as -> -> -> ->.
    destruct ws as [[led sch] pd fs cl ck tr out]. simpl in Hcl, Hf, Hl. subst.
    destruct m as [[pl cf]]. simpl in Hp. subst.
    exists (mkWorld
              (mkStore (Some [mkRow 1 d1 t1; mkRow 2 d2 t2; mkRow 3 d3 t3; mkRow 4 b4 ck])
                       (sch ++ [(c4, [])]))
              NoTx [] false (ck + 1)
              ((((((tr ++ [EvExec CreateMigrationsTable]) ++ [EvQuery SelectApplied])
                    ++ [EvBegin]) ++ [EvTxExec (Raw c4 [])])
                 ++ [EvTxExec (InsertMigration 4 b4 ck)]) ++ [EvCommit])
              (out ++ [applied_line (mkMigration 4 b4 c4 e4)])),
           (mkMigration 4 b4 c4 e4), ck.
    split; [reflexivity|].
    split; [vm_compute; reflexivity|].
    cbn [trace committed ledger schema].
    split; [rewrite !executed_bodies_app; simpl; now rewrite !app_nil_r|].
    split; [rewrite !applied_order_app; simpl; now rewrite !app_nil_r|].
    split; reflexivity.
Qed.

Lemma Migrate_idempotent_witness :
  exists r2 w2,
    Migrate Sample.manager [Sample.m1; Sample.m2] Sample.two_applied = (Ret r2, w2) /\
    executed_bodies (trace w2) = executed_bodies (trace Sample.two_applied) /\
    committed w2 = committed Sample.two_applied.
Proof.
  destruct (Migrate_idempotent Sample.manager [Sample.m1; Sample.m2] Sample.fresh
              Sample.two_applied)
    as [H _]; [vm_compute; eauto | vm_compute; reflexivity |].
  destruct (H []) as (r2 & w2 & E & B & _ & C).
  exists r2, w2. split; [exact E|]. split; [exact B | exact C].
Defined.

(** * Further properties of the package *)

(** ** Integers from the environment *)

Lemma wrap64_small (z : Z) : min_int <= z <= max_int -> wrap64 z = z.
Proof.
  unfold wrap64, min_int, max_int. intros H.
  rewrite Z.mod_small by lia. lia.
Qed.

Lemma digits_ge (s : string) :
  forall acc n, 0 <= acc -> Strings.digits s acc = Some n -> acc <= n.
Proof.
  induction s as [|c s IH]; intros acc n Ha; simpl.
  - intros [= <-]. lia.
  - destruct (Strings.is_digit c) eqn:D; [|discriminate].
    unfold Strings.is_digit in D. apply andb_true_iff in D as [D1 D2].
    apply Z.leb_le in D1. intros H. apply IH in H; lia.
Qed.

Lemma parseInt_loop_digits (s : string) :
  forall acc n,
    0 <= acc -> Strings.digits s acc = Some n -> n <= max_int ->
    Env.parseInt_loop s acc = Some n.
Proof.
  induction s as [|c s IH]; intros acc n Ha; simpl.
  - intros [= <-] _. reflexivity.
  - destruct (Strings.is_digit c) eqn:D; [|discriminate].
    unfold Strings.is_digit in D. apply andb_true_iff in D as [D1 D2].
    apply Z.leb_le in D1. apply Z.leb_le in D2.
    intros H Hn. change (Env.rune_of "0") with 48. unfold Env.rune_of.
    destruct (Z.ltb_spec 9 (Z.of_N (N_of_ascii c) - 48)); [lia|].
    assert (0 <= acc * 10 + (Z.of_N (N_of_ascii c) - 48)) as Hpos by lia.
    pose proof (digits_ge s _ n Hpos H) as G.
    rewrite wrap64_small by (unfold min_int, max_int in *; lia).
    apply IH; [lia | exact H | exact Hn].
Qed.

(** X1. On a string of decimal digits whose value fits [int], [parseInt]
    returns that value and no error (the value [strconv.Atoi] gives), and
    [getEnvInt] returns it instead of the fallback. *)
Theorem parseInt_of_digits (s : string) (n : Z) :
  Strings.digits s 0 = Some n -> n <= max_int ->
  Env.parseInt s = (n, None) /\
  forall env key fallback, env !! key = Some s -> Env.getEnvInt env key fallback = n.
Proof.
  intros Hd Hn.
  assert (Env.parseInt s = (n, None)) as P.
  { unfold Env.parseInt. now rewrite (parseInt_loop_digits s 0 n ltac:(lia) Hd Hn). }
  split; [exact P|]. intros env key fallback He.
  unfold Env.getEnvInt. now rewrite He, P.
Qed.

Lemma parseInt_of_digits_witness :
  Env.parseInt "5432" = (5432, None) /\
  Env.getEnvInt {[ "DB_PORT" := "5432" ]} "DB_PORT" 1 = 5432.
Proof.
  destruct (parseInt_of_digits "5432" 5432) as [P G];
    [reflexivity | vm_compute; discriminate |].
  split; [exact P | apply G; reflexivity].
Defined.

Lemma parseInt_loop_None (s : string) :
  forall n, Env.parseInt_loop s n = None ->
            exists s1 c s2, s = s1 +:+ String c s2 /\ 57 < Env.rune_of c.
Proof.
  induction s as [|c s IH]; intros n; simpl; [discriminate|].
  change (Env.rune_of "0") with 48.
  destruct (Z.ltb_spec 9 (Env.rune_of c - 48)) as [Hc|Hc].
  - intros _. exists EmptyString, c, s. split; [reflexivity | lia].
  - intros H. destruct (IH _ H) as (s1 & d & s2 & -> & Hd).
    exists (String c s1), d, s2. split; [reflexivity | exact Hd].
Qed.

(** X2. [parseInt] fails exactly on the strings that hold a byte above the
    digit nine; every other string is accepted, whatever it holds below the
    digit zero.  [getEnvInt] therefore returns the fallback exactly when the
    variable is unset or holds such a byte. *)
Theorem parseInt_error_iff (s : string) :
  (snd (Env.parseInt s) <> None <->
   exists s1 c s2, s = s1 +:+ String c s2 /\ 57 < Env.rune_of c) /\
  (forall env key fallback,
      (env !! key = None \/
       exists s1 c s2, env !! key = Some (s1 +:+ String c s2) /\ 57 < Env.rune_of c) ->
      Env.getEnvInt env key fallback = fallback) /\
  (forall env key fallback,
      env !! key = Some s -> snd (Env.parseInt s) = None ->
      Env.getEnvInt env key fallback = fst (Env.parseInt s)).
Proof.
  split; [|split].
  - unfold Env.parseInt. split.
    + destruct (Env.parseInt_loop s 0) eqn:L; simpl; [congruence|].
      intros _. now apply parseInt_loop_None in L.
    + intros (s1 & c & s2 & -> & Hc).
      rewrite EnvFacts.loop_rejects_above_nine by exact Hc. discriminate.
  - intros env key fallback [H|(s1 & c & s2 & H & Hc)].
    + now apply EnvFacts.getEnvInt_unset.
    + now apply EnvFacts.getEnvInt_above_nine with (s1 := s1) (c := c) (s2 := s2).
  - intros env key fallback He Hp. unfold Env.getEnvInt. rewrite He.
    destruct (Env.parseInt s) as [v [e|]]; simpl in *; congruence.
Qed.

(** ** Configuration *)

Ltac cfg_simpl :=
  cbn [cfg Port SSLMode Timeout MaxConns Host User Password DBName
       with_Port with_SSLMode with_Timeout with_MaxConns].

Lemma fill_defaults_fields (c : Config) :
  Port (fill_defaults c) = (if Port c =? 0 then 5432 else Port c) /\
  SSLMode (fill_defaults c)
  = (if String.eqb (SSLMode c) EmptyString then "disable" else SSLMode c) /\
  Timeout (fill_defaults c) = (if Timeout c =? 0 then 5 * Second else Timeout c) /\
  MaxConns (fill_defaults c) = (if MaxConns c =? 0 then 10 else MaxConns c) /\
  Host (fill_defaults c) = Host c /\ User (fill_defaults c) = User c /\
  Password (fill_defaults c) = Password c /\ DBName (fill_defaults c) = DBName c.
Proof.
  destruct c as [h p u pw d s t mc]. unfold fill_defaults. cfg_simpl.
  destruct (p =? 0); cfg_simpl;
    (destruct (String.eqb s EmptyString); cfg_simpl;
     (destruct (t =? 0); cfg_simpl;
      (destruct (mc =? 0); cfg_simpl; repeat split; reflexivity))).
Qed.

Lemma Config_eta (a b : Config) :
  Host a = Host b -> Port a = Port b -> User a = User b -> Password a = Password b ->
  DBName a = DBName b -> SSLMode a = SSLMode b -> Timeout a = Timeout b ->
  MaxConns a = MaxConns b -> a = b.
Proof. destruct a, b; simpl; congruence. Qed.

(** X3. The configuration of a new client has no zero port, empty SSL
    mode, zero timeout or zero pool size; the fields that were set are
    kept, the other fields are untouched, filling the defaults again changes
    nothing, and the client starts without a pool. *)
Theorem NewClient_fills_only_zero_fields (config : Config) :
  let c := cfg (NewClient config) in
  (Port c <> 0 /\ SSLMode c <> EmptyString /\ Timeout c <> 0 /\ MaxConns c <> 0) /\
  (Port c = if Port config =? 0 then 5432 else Port config) /\
  (SSLMode c = if String.eqb (SSLMode config) EmptyString then "disable" else SSLMode config) /\
  (Timeout c = if Timeout config =? 0 then 5 * Second else Timeout config) /\
  (MaxConns c = if MaxConns config =? 0 then 10 else MaxConns config) /\
  (Host c = Host config /\ User c = User config /\
   Password c = Password config /\ DBName c = DBName config) /\
  cfg (NewClient c) = c /\
  pool (NewClient config) = None.
Proof.
  cbn [cfg NewClient].
  destruct (fill_defaults_fields config) as (P & S & T & M & H & U & Pw & D).
  assert (Port (fill_defaults config) <> 0) as NP.
  { rewrite P. destruct (Z.eqb_spec (Port config) 0); [discriminate | assumption]. }
  assert (SSLMode (fill_defaults config) <> EmptyString) as NS.
  { rewrite S. destruct (String.eqb_spec (SSLMode config) EmptyString);
      [discriminate | assumption]. }
  assert (Timeout (fill_defaults config) <> 0) as NT.
  { rewrite T. destruct (Z.eqb_spec (Timeout config) 0); [discriminate | assumption]. }
  assert (MaxConns (fill_defaults config) <> 0) as NM.
  { rewrite M. destruct (Z.eqb_spec (MaxConns config) 0); [discriminate | assumption]. }
  split; [auto|]. split; [exact P|]. split; [exact S|]. split; [exact T|].
  split; [exact M|]. split; [auto|]. split; [|reflexivity].
  destruct (fill_defaults_fields (fill_defaults config))
    as (P2 & S2 & T2 & M2 & H2 & U2 & Pw2 & D2).
  apply Z.eqb_neq in NP, NT, NM. apply String.eqb_neq in NS.
  rewrite NP in P2. rewrite NS in S2. rewrite NT in T2. rewrite NM in M2.
  now apply Config_eta.
Qed.

(** X4. When none of the eight DB_ variables is set, the client of
    [NewClientFromEnv] is configured for localhost:5432, user, password and
    database "postgres", SSL mode "disable", a timeout of 30 seconds and 50
    connections: the defaults of [NewClient] (5 seconds, 10) do not apply. *)
Theorem NewClientFromEnv_unset_defaults (env : gmap string string) :
  env !! "DB_HOST" = None -> env !! "DB_PORT" = None -> env !! "DB_USER" = None ->
  env !! "DB_PASSWORD" = None -> env !! "DB_NAME" = None -> env !! "DB_SSLMODE" = None ->
  env !! "DB_TIMEOUT" = None -> env !! "DB_MAX_CONNS" = None ->
  cfg (NewClientFromEnv env) = env_defaults /\
  Timeout (cfg (NewClientFromEnv env)) <> Timeout (cfg (NewClient zero_config)) /\
  pool (NewClientFromEnv env) = None.
Proof.
  intros Hh Hp Hu Hpw Hn Hs Ht Hm.
  unfold NewClientFromEnv, NewClient, env_config, Env.getEnvString, Env.getEnvInt.
  rewrite Hh, Hp, Hu, Hpw, Hn, Hs, Ht, Hm.
  split; [vm_compute; reflexivity|]. split; [vm_compute; discriminate | reflexivity].
Qed.

Lemma NewClientFromEnv_unset_defaults_witness :
  cfg (NewClientFromEnv {[ "HOME" := "/root" ]}) = env_defaults.
Proof.
  destruct (NewClientFromEnv_unset_defaults {[ "HOME" := "/root" ]}) as [E _];
    [reflexivity | reflexivity | reflexivity | reflexivity
     | reflexivity | reflexivity | reflexivity | reflexivity | exact E].
Defined.

(** ** Connecting and closing *)

Lemma draw_outcome (w : World) :
  exists r w1, draw w = (r, w1) /\ committed w1 = committed w /\ pending w1 = pending w /\
               trace w1 = trace w /\ closed w1 = closed w /\ stdout w1 = stdout w.
Proof.
  unfold draw. destruct (faults w) as [|f fs]; eexists _, _; split; try reflexivity; simpl; auto 6.
Qed.

(** X5. [Connect] never panics and does not touch the server.  When it
    fails, the error is one of its three messages (connection string, pool
    creation, ping) around the cause, and the client is returned as it was:
    a client that was never connected stays without a pool.  When it
    succeeds, the client has a pool, the same configuration, and the pool is
    open. *)
Theorem Connect_outcomes (c : Client) (w : World) :
  exists r c' w',
    Connect c w = (Ret (r, c'), w') /\
    committed w' = committed w /\ trace w' = trace w /\ cfg c' = cfg c /\
    match r with
    | None => pool c' = Some Driver.ThePool /\ closed w' = false
    | Some err =>
        c' = c /\ closed w' = closed w /\
        exists prefix cause,
          In prefix connect_prefixes /\ err = Errorf_w prefix cause /\ Is err cause
    end.
Proof.
  unfold Connect, bind, lift, ret.
  destruct (draw_outcome w) as (r1 & w1 & E1 & C1 & _ & T1 & Cl1 & _). rewrite E1.
  destruct r1 as [e|].
  { exists (Some (Errorf_w "failed to parse connection string: " e)), c, w1.
    split; [reflexivity|]. split; [exact C1|]. split; [exact T1|]. split; [reflexivity|].
    split; [reflexivity|]. split; [exact Cl1|].
    exists "failed to parse connection string: ", e.
    split; [simpl; auto|]. split; [reflexivity | apply Is_Errorf_w]. }
  destruct (draw_outcome w1) as (r2 & w2 & E2 & C2 & _ & T2 & Cl2 & _). rewrite E2.
  destruct r2 as [e|].
  { exists (Some (Errorf_w "failed to create connection pool: " e)), c, w2.
    split; [reflexivity|]. split; [congruence|]. split; [congruence|]. split; [reflexivity|].
    split; [reflexivity|]. split; [congruence|].
    exists "failed to create connection pool: ", e.
    split; [simpl; auto|]. split; [reflexivity | apply Is_Errorf_w]. }
  destruct (draw_outcome w2) as (r3 & w3 & E3 & C3 & _ & T3 & Cl3 & _). rewrite E3.
  destruct r3 as [e|].
  { exists (Some (Errorf_w "failed to ping database: " e)), c, w3.
    split; [reflexivity|]. split; [congruence|]. split; [congruence|]. split; [reflexivity|].
    split; [reflexivity|]. split; [congruence|].
    exists "failed to ping database: ", e.
    split; [simpl; auto|]. split; [reflexivity | apply Is_Errorf_w]. }
  exists None, (mkClient (Some Driver.ThePool) (cfg c)), (set_closed false w3).
  split; [reflexivity|]. simpl.
  split; [congruence|]. split; [congruence|]. auto.
Qed.

Lemma on_pool_returns {A} (c : Client) (call : World -> A * World) (w : World) :
  is_Some (pool c) -> on_pool c call w = (Ret (fst (call w)), snd (call w)).
Proof.
  intros [p Hp]. unfold on_pool, lift. rewrite Hp. destruct (call w); reflexivity.
Qed.

(** X6. After a successful [Connect] no operation of the returned client
    panics: [Ping], [QueryRow], [QueryRows], [Exec] and [ExecBatch] return,
    in every state of the server, and so does [ExecTx] whenever the work
    function returns. *)
Theorem connected_operations_return
        (c c' : Client) (w w' : World) (query : Stmt)
        (queries : list string) (args : list (list Value)) (ws : World) :
  Connect c w = (Ret (None, c'), w') ->
  (exists r ws', Ping c' ws = (Ret r, ws')) /\
  (exists r ws', QueryRow c' query ws = (Ret r, ws')) /\
  (exists r ws', QueryRows c' query ws = (Ret r, ws')) /\
  (exists r ws', Exec c' query ws = (Ret r, ws')) /\
  (exists r ws', ExecBatch c' queries args ws = (Ret r, ws')) /\
  (forall fn,
      (forall tx w1, exists worked w2, fn tx w1 = (Ret worked, w2)) ->
      exists r ws', ExecTx c' fn ws = (Ret r, ws')).
Proof.
  intros H. pose proof (Connect_success_sets_pool c c' w w' H) as Hc.
  split; [|split; [|split; [|split; [|split]]]].
  - destruct Hc as [p Hp]. unfold Ping, lift. rewrite Hp.
    destruct (acquire ws); eauto.
  - unfold QueryRow. rewrite on_pool_returns by assumption. eauto.
  - unfold QueryRows. rewrite on_pool_returns by assumption. eauto.
  - unfold Exec. rewrite on_pool_returns by assumption. eauto.
  - unfold ExecBatch, bind. rewrite on_pool_returns by assumption. unfold ret. eauto.
  - intros fn Hfn.
    destruct (Driver.pool_Begin ws) as [[err|tx] w1] eqn:B.
    + rewrite (ExecTx_begin_failed c' fn Hc ws w1 err B). eauto.
    + destruct (Hfn tx w1) as (worked & w2 & F).
      rewrite (ExecTx_after_work c' fn Hc ws w1 w2 tx worked B F).
      destruct worked; [destruct (Driver.tx_Rollback w2) as [[?|] ?]
                       | destruct (Driver.tx_Commit w2) as [[?|] ?]]; eauto.
Qed.

Lemma connected_operations_return_witness :
  exists r ws', Exec Cases.connected (Raw "SELECT 1" []) Sample.fresh = (Ret r, ws').
Proof.
  destruct (connected_operations_return
              (NewClient Sample.config) Cases.connected
              Sample.fresh Sample.fresh (Raw "SELECT 1" []) [] [] Sample.fresh)
    as (_ & _ & _ & E & _); [reflexivity | exact E].
Defined.

(** X7. [Close] leaves the pool field set.  On a connected client it closes
    the pool and touches nothing else; afterwards [Ping] does not answer
    with its "not initialized" guard but with the error of the closed pool,
    [Exec] and [ExecTx] fail with that error too (the work function is
    not run), nothing panics and the store is unchanged. *)
Theorem operations_after_Close
        (c : Client) (w : World) (query : Stmt) (fn : Driver.Tx -> Go (option error)) :
  is_Some (pool c) ->
  exists w1,
    Close c w = (Ret tt, w1) /\
    closed w1 = true /\ committed w1 = committed w /\ trace w1 = trace w ++ [EvClose] /\
    Ping c w1 = (Ret (Some ErrClosedPool), w1) /\
    Exec c query w1 = (Ret (Some ErrClosedPool), log (EvExec query) w1) /\
    ExecTx c fn w1
    = (Ret (Some (Errorf_w "failed to begin transaction: " ErrClosedPool)), log EvBegin w1).
Proof.
  intros [p Hp]. exists (Driver.pool_Close w).
  unfold Close, Ping, Exec, ExecTx, bind, on_pool, lift, ret. rewrite Hp.
  unfold Driver.pool_Exec, Driver.pool_Begin, acquire, Driver.pool_Close.
  destruct w as [st pd fs cl ck tr out]. simpl. repeat split; reflexivity.
Qed.

Lemma operations_after_Close_witness :
  Ping Sample.pg (snd (Close Sample.pg Sample.three_applied))
  = (Ret (Some ErrClosedPool), snd (Close Sample.pg Sample.three_applied)).
Proof.
  destruct (operations_after_Close Sample.pg Sample.three_applied SelectLast Sample.failing_work)
    as (w1 & E & _ & _ & _ & P & _); [vm_compute; eauto|].
  rewrite E. exact P.
Defined.

(** ** More on the transaction runner *)

Lemma tx_Commit_success (w w' : World) :
  Driver.tx_Commit w = (None, w') ->
  exists st, pending w = Open st /\ committed w' = st /\ pending w' = NoTx /\
             trace w' = trace w ++ [EvCommit].
Proof.
  unfold Driver.tx_Commit, draw, log, set_pending, set_committed, set_faults.
  destruct w as [st0 pd fs cl ck tr out]; simpl.
  destruct fs as [|[e|] fs]; simpl; destruct pd; simpl; intros [= <-]; simpl; eauto.
Qed.

(** X8. [ExecTx] returns no error only when [Begin] succeeded, the work
    function returned no error and [Commit] succeeded; the store is then
    what the transaction held at the commit.  When the work function
    returns no error and [Commit] fails, the error returned is "failed to
    commit transaction: " around the failure of the commit. *)
Theorem ExecTx_commit_path
        (c : Client) (fn : Driver.Tx -> Go (option error)) (w : World) :
  is_Some (pool c) ->
  (forall w', ExecTx c fn w = (Ret None, w') ->
     exists tx w1 w2 st,
       Driver.pool_Begin w = (inr tx, w1) /\ fn tx w1 = (Ret None, w2) /\
       Driver.tx_Commit w2 = (None, w') /\
       pending w2 = Open st /\ committed w' = st /\ pending w' = NoTx) /\
  (forall tx w1 w2 err w3,
     Driver.pool_Begin w = (inr tx, w1) -> fn tx w1 = (Ret None, w2) ->
     Driver.tx_Commit w2 = (Some err, w3) ->
     ExecTx c fn w = (Ret (Some (Errorf_w "failed to commit transaction: " err)), w3) /\
     Is (Errorf_w "failed to commit transaction: " err) err /\
     finishes (trace w3) = finishes (trace w2) ++ [EvCommit]).
Proof.
  intros Hc. split.
  - intros w' H.
    destruct (Driver.pool_Begin w) as [[err|tx] w1] eqn:B.
    { rewrite (ExecTx_begin_failed c fn Hc w w1 err B) in H. discriminate H. }
    destruct (fn tx w1) as [[worked|msg] w2] eqn:F.
    + rewrite (ExecTx_after_work c fn Hc w w1 w2 tx worked B F) in H.
      destruct worked as [e|].
      * destruct (Driver.tx_Rollback w2) as [[?|] ?]; discriminate H.
      * destruct (Driver.tx_Commit w2) as [[e|] w3] eqn:Cm; [discriminate H|].
        injection H as <-.
        destruct (tx_Commit_success w2 w3 Cm) as (st & P & C & P' & _).
        exists tx, w1, w2, st. auto 10.
    + destruct Hc as [p Hp]. unfold ExecTx, bind, on_pool, lift in H.
      rewrite Hp, B, F in H. discriminate H.
  - intros tx w1 w2 err w3 B F Cm.
    rewrite (ExecTx_after_work c fn Hc w w1 w2 tx None B F), Cm.
    split; [reflexivity|]. split; [apply Is_Errorf_w|].
    destruct (tx_Commit_trace w2) as (T & _). rewrite Cm in T. simpl in T.
    unfold finishes. rewrite T, List.filter_app. reflexivity.
Qed.

Lemma ExecTx_commit_path_witness :
  fst (ExecTx Sample.pg Cases.one_insert Cases.commit_breaks)
  = Ret (Some (Wrap "failed to commit transaction: conn closed" (New "conn closed"))).
Proof.
  destruct (ExecTx_commit_path Sample.pg Cases.one_insert Cases.commit_breaks) as [_ H];
    [vm_compute; eauto|].
  destruct (H Driver.TheTx
              (snd (Driver.pool_Begin Cases.commit_breaks))
              (snd (Cases.one_insert Driver.TheTx (snd (Driver.pool_Begin Cases.commit_breaks))))
              (New "conn closed")
              (snd (ExecTx Sample.pg Cases.one_insert Cases.commit_breaks)))
    as (E & _); [reflexivity | reflexivity | reflexivity |].
  rewrite E. reflexivity.
Defined.

(** X9. [ExecTx] has no deferred rollback: when the work function panics,
    the panic leaves [ExecTx] at once, neither [Rollback] nor [Commit] is
    called after the work, and the transaction stays as the work function
    left it. *)
Theorem ExecTx_work_panic
        (c : Client) (fn : Driver.Tx -> Go (option error))
        (w w1 w2 : World) (tx : Driver.Tx) (msg : string) :
  is_Some (pool c) ->
  Driver.pool_Begin w = (inr tx, w1) ->
  fn tx w1 = (Panic msg, w2) ->
  ExecTx c fn w = (Panic msg, w2) /\
  pending w1 = Open (committed w) /\
  forall w', snd (ExecTx c fn w) = w' ->
             trace w' = trace w2 /\ pending w' = pending w2.
Proof.
  intros [p Hp] B F.
  assert (ExecTx c fn w = (Panic msg, w2)) as E.
  { unfold ExecTx, bind, on_pool, lift. rewrite Hp, B, F. reflexivity. }
  split; [exact E|]. split.
  - destruct (pool_Begin_trace w w1 _ B) as (_ & _ & P). exact P.
  - intros w' <-. rewrite E. auto.
Qed.

Lemma ExecTx_work_panic_witness :
  ExecTx Sample.pg Cases.panicking_work Sample.fresh
  = (Panic "index out of range", snd (Driver.pool_Begin Sample.fresh)) /\
  pending (snd (ExecTx Sample.pg Cases.panicking_work Sample.fresh))
  = Open (committed Sample.fresh).
Proof.
  destruct (ExecTx_work_panic Sample.pg Cases.panicking_work Sample.fresh
              (snd (Driver.pool_Begin Sample.fresh)) (snd (Driver.pool_Begin Sample.fresh))
              Driver.TheTx "index out of range") as (E & P & _);
    [vm_compute; eauto | reflexivity | reflexivity |].
  split; [exact E|]. rewrite E. exact P.
Defined.

(** ** More on the migration manager *)

Lemma has_version_In (v : Z) (l : list Row) :
  has_version v l = true <-> In v (versions l).
Proof.
  unfold has_version, versions. rewrite existsb_exists, in_map_iff. split.
  - intros (r & Hr & E). apply Z.eqb_eq in E. eauto.
  - intros (r & E & Hr). exists r. split; [exact Hr | now apply Z.eqb_eq].
Qed.

Section ManagerMore.

Variable m : MigrationManager.
Hypothesis connected : is_Some (pool (client m)).

Lemma InitMigrationTable_outcome (w : World) :
  exists r w',
    InitMigrationTable m w = (Ret r, w') /\
    stdout w' = stdout w /\
    match r with
    | None => True
    | Some e => exists cause, e = Errorf_w "error creating migrations table: " cause
    end.
Proof.
  destruct connected as [p Hp].
  unfold InitMigrationTable, Exec, bind, on_pool, lift, ret. rewrite Hp.
  unfold Driver.pool_Exec, acquire, draw, log, set_faults, set_committed.
  destruct w as [[led sch] pd fs cl ck tr out].
  crunch; eexists _, _; (split; [reflexivity|]); (split; [reflexivity|]);
    first [exact I | eexists; reflexivity].
Qed.

Lemma ApplyMigration_stdout (mig : Migration) (w : World) :
  exists r w', ApplyMigration m mig w = (Ret r, w') /\ stdout w' = stdout w.
Proof.
  destruct connected as [p Hp].
  unfold ApplyMigration, ExecTx, bind, on_pool, lift, ret. rewrite Hp.
  unfold Driver.pool_Begin, Driver.tx_Exec, Driver.tx_Commit, Driver.tx_Rollback,
    acquire, draw, now, log, set_pending, set_faults, set_committed.
  destruct w as [[led sch] pd fs cl ck tr out].
  crunch; eexists _, _; split; reflexivity.
Qed.

End ManagerMore.

(** X10. [ApplyMigration] is all or nothing.  When it returns no error, the
    ledger existed, did not have the version, and now ends with the row of
    the migration (its version and description), and the body is the last
    statement of the schema.  When it returns an error, the committed
    store is exactly as before: neither the body nor the row persists.  It
    prints nothing. *)
Theorem ApplyMigration_all_or_nothing
        (m : MigrationManager) (mig : Migration) (w : World) :
  is_Some (pool (client m)) ->
  exists r w',
    ApplyMigration m mig w = (Ret r, w') /\
    stdout w' = stdout w /\
    match r with
    | None =>
        exists l t,
          ledger (committed w) = Some l /\ ~ In (Version mig) (versions l) /\
          committed w' = mkStore (Some (l ++ [mkRow (Version mig) (Description mig) t]))
                                 (schema (committed w) ++ [(SQL mig, [])])
    | Some _ => committed w' = committed w
    end.
Proof.
  intros Hc.
  destruct (ApplyMigration_spec m Hc mig w) as (r & w' & evs & E & _ & _ & R).
  destruct (ApplyMigration_stdout m Hc mig w) as (r2 & w2 & E2 & O).
  rewrite E in E2. injection E2 as <- <-.
  exists r, w'. split; [exact E|]. split; [exact O|].
  destruct r as [e|].
  - destruct R as [C _]. exact C.
  - destruct R as (_ & _ & l & t & L & H & C). exists l, t.
    split; [exact L|]. split; [|exact C].
    rewrite <- has_version_In. rewrite H. discriminate.
Qed.

Lemma ApplyMigration_all_or_nothing_witness :
  committed (snd (ApplyMigration Sample.manager Sample.m1 Sample.fresh))
  = committed Sample.fresh.
Proof.
  destruct (ApplyMigration_all_or_nothing Sample.manager Sample.m1 Sample.fresh)
    as (r & w' & E & _ & R); [vm_compute; eauto|].
  rewrite E. simpl.
  destruct r as [e|]; [exact R|].
  destruct R as (l & t & L & _). discriminate L.
Defined.

(** X11. [InitMigrationTable] only ever creates the ledger: it leaves the
    schema alone, keeps every row of an existing ledger (the store is then
    unchanged, whether it fails or not), and on success a missing ledger
    becomes the empty one.  Its error is "error creating migrations
    table: " around the cause. *)
Theorem InitMigrationTable_creates_only
        (m : MigrationManager) (w : World) :
  is_Some (pool (client m)) ->
  exists r w',
    InitMigrationTable m w = (Ret r, w') /\
    schema (committed w') = schema (committed w) /\
    (is_Some (ledger (committed w)) -> committed w' = committed w) /\
    match r with
    | None => ledger (committed w') = Some (default [] (ledger (committed w)))
    | Some e =>
        committed w' = committed w /\
        exists cause, e = Errorf_w "error creating migrations table: " cause
    end.
Proof.
  intros Hc.
  destruct (InitMigrationTable_spec m Hc w) as (r & w' & E & _ & _ & S & R).
  destruct (InitMigrationTable_outcome m Hc w) as (r2 & w2 & E2 & _ & F).
  rewrite E in E2. injection E2 as <- <-.
  exists r, w'. split; [exact E|]. split; [exact S|].
  destruct r as [e|].
  - destruct F as [cause ->]. split; [intros _; exact R|]. split; [exact R | eauto].
  - split; [|exact R]. intros [l Hl]. apply store_eta; [|exact S].
    rewrite R, Hl. reflexivity.
Qed.

Lemma InitMigrationTable_creates_only_witness :
  ledger (committed (snd (InitMigrationTable Sample.manager Sample.fresh))) = Some [] /\
  committed (snd (InitMigrationTable Sample.manager Sample.three_applied))
  = committed Sample.three_applied.
Proof.
  destruct (InitMigrationTable_creates_only Sample.manager Sample.three_applied)
    as (r & w' & E & _ & K & _); [vm_compute; eauto|].
  split; [reflexivity|]. rewrite E. apply K. vm_compute. eauto.
Defined.

(** The map the cursor loop builds: one insertion per row, in order. *)
Lemma scan_rows_result (rows : list Row) :
  forall (result : gmap Z Z) (w w' : World) (applied : gmap Z Z) (r : option error),
    scan_rows rows result w = (Ret (applied, r), w') ->
    match r with
    | None =>
        applied = foldl (fun acc row => <[row_version row := row_applied_at row]> acc)
                        result rows
    | Some e =>
        applied = ∅ /\
        exists cause, e = Errorf_w "error scanning migration: " cause \/
                      e = Errorf_w "error iterating migrations: " cause
    end.
Proof.
  induction rows as [|row rows IH]; intros result w w' applied r; simpl;
    unfold bind, lift, ret, Driver.rows_Err, Driver.rows_Scan;
    destruct (draw w) as [[e|] w1].
  - intros [= <- <- <-]. split; [reflexivity | eauto].
  - intros [= <- <- <-]. reflexivity.
  - intros [= <- <- <-]. split; [reflexivity | eauto].
  - intros H. apply IH in H. exact H.
Qed.

Lemma foldl_insert_lookup (rows : list Row) :
  NoDup (versions rows) ->
  forall (result : gmap Z Z) (v t : Z),
    (forall row, In row rows -> result !! row_version row = None) ->
    foldl (fun acc row => <[row_version row := row_applied_at row]> acc) result rows !! v
    = Some t <->
    result !! v = Some t \/
    exists row, In row rows /\ row_version row = v /\ row_applied_at row = t.
Proof.
  induction rows as [|row rows IH]; intros Hnd result v t Hfresh; simpl.
  - split; [auto | intros [H|(row & [] & _)]; exact H].
  - apply NoDup_cons in Hnd as [Hnot Hnd].
    rewrite (IH Hnd).
    + destruct (decide (row_version row = v)) as [<-|Hne].
      * rewrite lookup_insert_eq, (Hfresh row (or_introl eq_refl)). split.
        -- intros [[= <-]|(r' & Hin & Hv & Ht)]; [right; eauto|].
           right. exists r'. auto.
        -- intros [H|(r' & [<-|Hin] & Hv & Ht)]; [discriminate H | left; congruence |].
           right. eauto.
      * rewrite lookup_insert_ne by assumption. split.
        -- intros [H|(r' & Hin & Hv & Ht)]; [auto|]. right. exists r'. auto.
        -- intros [H|(r' & [<-|Hin] & Hv & Ht)]; [auto | contradiction |]. right. eauto.
    + intros r' Hin. rewrite lookup_insert_ne; [apply Hfresh; now right|].
      intros Heq. apply Hnot. apply list_elem_of_In. unfold versions.
      apply in_map_iff. exists r'. split; [congruence | exact Hin].
Qed.

(** X12. [GetAppliedMigrations] only reads: the store is unchanged.  When it
    returns no error, the ledger exists, the keys of the map are exactly the
    versions in the ledger (none for an empty ledger) and, versions being
    unique, each key is mapped to the applied-at time of its row.  When it
    returns an error, the map is empty and the error is one of "error
    querying migrations", "error scanning migration" and "error iterating
    migrations" around the cause. *)
Theorem GetAppliedMigrations_reads_ledger
        (m : MigrationManager) (w w' : World) (applied : gmap Z Z) (r : option error) :
  is_Some (pool (client m)) ->
  GetAppliedMigrations m w = (Ret (applied, r), w') ->
  committed w' = committed w /\
  match r with
  | None =>
      exists l,
        ledger (committed w) = Some l /\
        (forall v, is_Some (applied !! v) <-> In v (versions l)) /\
        (l = [] -> applied = ∅) /\
        (NoDup (versions l) ->
         forall v t, applied !! v = Some t <->
                     exists row, In row l /\ row_version row = v /\ row_applied_at row = t)
  | Some e =>
      applied = ∅ /\
      exists prefix cause,
        e = Errorf_w prefix cause /\
        In prefix ["error querying migrations: "; "error scanning migration: ";
                   "error iterating migrations: "]
  end.
Proof.
  intros Hc H.
  destruct (GetAppliedMigrations_spec m Hc w) as (a2 & r2 & w2 & E & _ & C & _ & D).
  rewrite H in E. injection E as <- <- <-.
  split; [exact C|].
  destruct Hc as [p Hp].
  unfold GetAppliedMigrations, QueryRows, bind, on_pool, lift, ret in H. rewrite Hp in H.
  unfold Driver.pool_Query in H. rewrite acquire_log in H.
  pose proof (acquire_frame w) as (Ca & _).
  destruct (acquire w) as [[e|] w1]; simpl in Ca, H.
  { injection H as <- <- <-. split; [reflexivity|]. eexists _, e.
    split; [reflexivity | simpl; auto]. }
  rewrite Ca in H. destruct (ledger (committed w)) as [l|] eqn:L; simpl in H.
  - pose proof (scan_rows_result _ _ _ _ _ _ H) as R. destruct r as [e|].
    + destruct R as [-> [cause [-> | ->]]]; (split; [reflexivity|]); eexists _, cause;
        (split; [reflexivity | simpl; auto]).
    + destruct (D eq_refl) as (_ & Dom). unfold ledger_versions in Dom. rewrite L in Dom.
      exists l. split; [reflexivity|]. split; [exact Dom|]. split.
      * intros ->. exact R.
      * intros Hnd v t. rewrite R.
        assert (NoDup (versions (merge_sort by_version l))) as Hnd'.
        { assert (versions (merge_sort by_version l) ≡ₚ versions l) as P
            by apply Permutation_map, merge_sort_Permutation.
          rewrite P. exact Hnd. }
        rewrite (foldl_insert_lookup _ Hnd' ∅ v t) by (intros; apply lookup_empty).
        rewrite lookup_empty. split.
        -- intros [H0|(row & Hin & Hv & Ht)]; [discriminate H0|].
           exists row. split; [|auto].
           eapply Permutation_in; [apply (merge_sort_Permutation by_version l) | exact Hin].
        -- intros (row & Hin & Hv & Ht). right. exists row. split; [|auto].
           eapply Permutation_in;
             [symmetry; apply (merge_sort_Permutation by_version l) | exact Hin].
  - injection H as <- <- <-. split; [reflexivity|]. eexists _, ErrNoTable.
    split; [reflexivity | simpl; auto].
Qed.

Lemma GetAppliedMigrations_reads_ledger_witness :
  fst_map (GetAppliedMigrations Sample.manager Sample.three_applied) !! 2 = Some 11.
Proof.
  destruct (GetAppliedMigrations_reads_ledger
              Sample.manager Sample.three_applied
              (snd (GetAppliedMigrations Sample.manager Sample.three_applied))
              (fst_map (GetAppliedMigrations Sample.manager Sample.three_applied)) None)
    as (_ & l & L & _ & _ & V); [vm_compute; eauto | vm_compute; reflexivity |].
  injection L as <-. apply V.
  - refine (bool_decide_unpack _ _). vm_compute. exact I.
  - exists Sample.r2. split; [right; left; reflexivity | split; reflexivity].
Defined.

(** ** Progress of [Migrate] *)

Lemma ledger_versions_default (st : Store) :
  ledger_versions st = versions (default [] (ledger st)).
Proof. unfold ledger_versions. destruct (ledger st); reflexivity. Qed.

Section Progress.

Variable m : MigrationManager.
Hypothesis connected : is_Some (pool (client m)).

Lemma scan_rows_stdout (rows : list Row) :
  forall (result : gmap Z Z) (w : World),
  exists r w', scan_rows rows result w = (Ret r, w') /\ stdout w' = stdout w.
Proof.
  induction rows as [|row rows IH]; intros result w; simpl;
    unfold bind, lift, ret, Driver.rows_Err, Driver.rows_Scan;
    destruct (draw_outcome w) as (r1 & w1 & E & _ & _ & _ & _ & O); rewrite E;
    destruct r1 as [e|]; try (eexists _, _; split; [reflexivity | exact O]).
  destruct (IH (<[row_version row := row_applied_at row]> result) w1) as (r & w' & E' & O').
  exists r, w'. split; [exact E' | congruence].
Qed.

Lemma GetAppliedMigrations_stdout (w : World) :
  exists r w', GetAppliedMigrations m w = (Ret r, w') /\ stdout w' = stdout w.
Proof.
  destruct connected as [p Hp].
  unfold GetAppliedMigrations, QueryRows, bind, on_pool, lift, ret. rewrite Hp.
  unfold Driver.pool_Query. rewrite acquire_log.
  assert (stdout (snd (acquire w)) = stdout w) as O.
  { unfold acquire. destruct (closed w); [reflexivity|].
    destruct (draw_outcome w) as (r1 & w1 & E & _ & _ & _ & _ & O). now rewrite E. }
  destruct (acquire w) as [[e|] w1]; simpl in O; cbn [fst snd].
  - eexists _, _. split; [reflexivity | exact O].
  - change (committed (log (EvQuery SelectApplied) w1)) with (committed w1).
    destruct (run_query SelectApplied (committed w1)) as [e|rows].
    + eexists _, _. split; [reflexivity | exact O].
    + destruct (scan_rows_stdout rows ∅ (log (EvQuery SelectApplied) w1))
        as ([applied r] & w' & E & O').
      rewrite E. destruct r; eexists _, _; (split; [reflexivity|]); simpl in O'; congruence.
Qed.

Section Loop.

Variable applied : gmap Z Z.
Variable keep : Migration -> bool.
Hypothesis keep_spec : forall mig, keep mig = true <-> applied !! Version mig = None.

(** How far the loop got: [i] migrations of the pending ones were applied,
    one after the other, each with its row, its body and its printed line. *)
Lemma migrate_loop_progress (migrations : list Migration) :
  forall w,
  exists r w' i rows,
    migrate_loop m applied migrations w = (Ret r, w') /\
    (i <= length (List.filter keep migrations))%nat /\
    (r = None -> i = length (List.filter keep migrations)) /\
    (r <> None -> (i < length (List.filter keep migrations))%nat) /\
    stdout w' = stdout w ++ map applied_line (take i (List.filter keep migrations)) /\
    schema (committed w')
    = schema (committed w)
      ++ map (fun mig => (SQL mig, [])) (take i (List.filter keep migrations)) /\
    default [] (ledger (committed w')) = default [] (ledger (committed w)) ++ rows /\
    (is_Some (ledger (committed w)) -> is_Some (ledger (committed w'))) /\
    map row_version rows = map Version (take i (List.filter keep migrations)) /\
    map row_description rows = map Description (take i (List.filter keep migrations)) /\
    NoDup (map Version (take i (List.filter keep migrations))) /\
    (forall v, In v (map Version (take i (List.filter keep migrations))) ->
               ~ In v (ledger_versions (committed w))).
Proof.
  induction migrations as [|mig rest IH]; intros w.
  - exists None, w, 0%nat, []. simpl. rewrite !app_nil_r.
    split; [reflexivity|]. split; [lia|]. split; [reflexivity|]. split; [congruence|].
    split; [reflexivity|]. split; [reflexivity|]. split; [reflexivity|]. split; [auto|].
    split; [reflexivity|]. split; [reflexivity|]. split; [constructor | intros v []].
  - simpl. destruct (keep mig) eqn:K.
    + apply keep_spec in K. rewrite K.
      destruct (ApplyMigration_spec m connected mig w) as (r1 & w1 & evs & E & _ & _ & R).
      destruct (ApplyMigration_stdout m connected mig w) as (r2 & w2 & E2 & O).
      rewrite E in E2. injection E2 as <- <-.
      unfold bind at 1. rewrite E. destruct r1 as [e|].
      * destruct R as (C & _).
        exists (Some e), w1, 0%nat, []. split; [reflexivity|]. simpl. rewrite !app_nil_r.
        split; [lia|]. split; [discriminate|]. split; [intros _; lia|].
        split; [exact O|]. split; [now rewrite C|]. split; [now rewrite C|].
        split; [now rewrite C|]. split; [reflexivity|]. split; [reflexivity|].
        split; [constructor | intros v []].
      * destruct R as (_ & _ & l & t & L & H & C).
        unfold bind, lift. simpl.
        destruct (IH (print (applied_line mig) w1))
          as (r & w' & i & rows & E' & Hi & Hn & Hs & O' & S' & L' & T' & V' & D' & N' & F').
        simpl in O', S', L', T', F'. rewrite C in S', L', F'. simpl in S', L'.
        rewrite ledger_versions_default in F'. simpl in F'.
        exists r, w', (S i), (mkRow (Version mig) (Description mig) t :: rows).
        split; [exact E'|]. simpl.
        split; [lia|]. split; [intros Hr; rewrite (Hn Hr); reflexivity|].
        split; [intros Hr; specialize (Hs Hr); lia|].
        split; [rewrite O', O, <- app_assoc; reflexivity|].
        split; [rewrite S', <- app_assoc; reflexivity|].
        split; [rewrite L', L, <- app_assoc; reflexivity|].
        split; [intros _; apply T'; rewrite C; simpl; eauto|].
        split; [now rewrite V'|]. split; [now rewrite D'|].
        assert (~ In (Version mig) (versions l)) as Hfresh.
        { rewrite <- has_version_In, H. discriminate. }
        split.
        -- apply NoDup_cons. split; [|exact N'].
           intros Hin. apply list_elem_of_In in Hin. apply (F' _ Hin).
           unfold versions. rewrite map_app. apply in_or_app. right. now left.
        -- intros v [<-|Hin]; rewrite ledger_versions_default, L; simpl; [exact Hfresh|].
           intros Hl. apply (F' _ Hin). unfold versions. rewrite map_app.
           apply in_or_app. now left.
    + assert (is_Some (applied !! Version mig)) as [t Ht].
      { destruct (applied !! Version mig) eqn:A; [eauto|].
        apply keep_spec in A. congruence. }
      rewrite Ht. apply IH.
Qed.

End Loop.

(** The same for [Migrate]: its two steps before the loop apply nothing. *)
Lemma Migrate_progress (migrations : list Migration) (w : World) :
  exists r w' i rows,
    Migrate m migrations w = (Ret r, w') /\
    (i <= length (pending_of (committed w) migrations))%nat /\
    (r = None -> i = length (pending_of (committed w) migrations)) /\
    (r <> None -> pending_of (committed w) migrations <> [] ->
     (i < length (pending_of (committed w) migrations))%nat) /\
    stdout w' = stdout w ++ map applied_line (take i (pending_of (committed w) migrations)) /\
    schema (committed w')
    = schema (committed w)
      ++ map (fun mig => (SQL mig, [])) (take i (pending_of (committed w) migrations)) /\
    default [] (ledger (committed w')) = default [] (ledger (committed w)) ++ rows /\
    map row_version rows = map Version (take i (pending_of (committed w) migrations)) /\
    map row_description rows
    = map Description (take i (pending_of (committed w) migrations)) /\
    NoDup (map Version (take i (pending_of (committed w) migrations))).
Proof.
  destruct (InitMigrationTable_spec m connected w) as (r0 & wa & E0 & _ & _ & S0 & R0).
  destruct (InitMigrationTable_outcome m connected w) as (r0' & wa' & E0' & O0 & _).
  rewrite E0 in E0'. injection E0' as <- <-.
  unfold Migrate. unfold bind at 1. rewrite E0.
  assert (default [] (ledger (committed wa)) = default [] (ledger (committed w))) as L0.
  { destruct r0; [now rewrite R0|]. rewrite R0. destruct (ledger (committed w)); reflexivity. }
  assert (forall (A : Type) (l : list A),
             l <> [] -> (0 < length l)%nat) as Pos.
  { intros A [|x l] H; [contradiction | simpl; lia]. }
  destruct r0 as [e|].
  { exists (Some e), wa, 0%nat, []. split; [reflexivity|]. simpl. rewrite !app_nil_r.
    split; [lia|]. split; [discriminate|]. split; [intros _; apply Pos|].
    split; [exact O0|]. split; [exact S0|]. split; [exact L0|].
    split; [reflexivity|]. split; [reflexivity | constructor]. }
  destruct (GetAppliedMigrations_spec m connected wa)
    as (applied & r1 & wb & E1 & _ & C1 & _ & D1).
  destruct (GetAppliedMigrations_stdout wa) as (x & wb' & E1' & O1).
  rewrite E1 in E1'. injection E1' as <- <-.
  unfold bind at 1. rewrite E1.
  destruct r1 as [e|].
  { exists (Some e), wb, 0%nat, []. split; [reflexivity|]. simpl. rewrite !app_nil_r.
    split; [lia|]. split; [discriminate|]. split; [intros _; apply Pos|].
    split; [congruence|]. split; [congruence|]. split; [congruence|].
    split; [reflexivity|]. split; [reflexivity | constructor]. }
  destruct (D1 eq_refl) as (_ & Dom).
  assert (ledger_versions (committed wa) = ledger_versions (committed w)) as LV.
  { now rewrite !ledger_versions_default, L0. }
  rewrite LV in Dom.
  set (keep := fun mig : Migration =>
                 negb (existsb (Z.eqb (Version mig)) (ledger_versions (committed w)))).
  assert (forall mig, keep mig = true <-> applied !! Version mig = None) as Hkeep.
  { intros mig. unfold keep. rewrite negb_true_iff, <- not_true_iff_false, existsb_eqb_In.
    rewrite <- Dom. rewrite <- eq_None_not_Some. reflexivity. }
  destruct (migrate_loop_progress applied keep Hkeep migrations wb)
    as (r & w' & i & rows & E & Hi & Hn & Hs & O & S & L & _ & V & D & N & _).
  exists r, w', i, rows. split; [exact E|].
  change (pending_of (committed w) migrations) with (List.filter keep migrations).
  rewrite C1 in S, L.
  split; [exact Hi|]. split; [exact Hn|]. split; [intros Hr _; now apply Hs|].
  split; [congruence|]. split; [congruence|]. split; [congruence|]. auto.
Qed.

End Progress.

(** X13. Partial progress of [Migrate].  Whatever happens, some number [i] of
    the pending migrations, the first [i] in the order of the input, were
    applied: the ledger is the old one followed by their rows (version and
    description), the schema the old one followed by their bodies, and one
    line "Applied migration <version>: <description>" was printed for each.
    Without an error that is all of them; with an error and something
    pending it is fewer than all: the failing migration is not recorded and
    what was applied before it stays. *)
Theorem Migrate_partial_progress
        (m : MigrationManager) (migrations : list Migration) (w : World) :
  is_Some (pool (client m)) ->
  exists r w' i rows,
    Migrate m migrations w = (Ret r, w') /\
    (i <= length (pending_of (committed w) migrations))%nat /\
    (r = None -> i = length (pending_of (committed w) migrations)) /\
    (r <> None -> pending_of (committed w) migrations <> [] ->
     (i < length (pending_of (committed w) migrations))%nat) /\
    stdout w' = stdout w ++ map applied_line (take i (pending_of (committed w) migrations)) /\
    schema (committed w')
    = schema (committed w)
      ++ map (fun mig => (SQL mig, [])) (take i (pending_of (committed w) migrations)) /\
    default [] (ledger (committed w')) = default [] (ledger (committed w)) ++ rows /\
    map row_version rows = map Version (take i (pending_of (committed w) migrations)) /\
    map row_description rows
    = map Description (take i (pending_of (committed w) migrations)).
Proof.
  intros Hc.
  destruct (Migrate_progress m Hc migrations w)
    as (r & w' & i & rows & E & Hi & Hn & Hs & O & S & L & V & D & _).
  exists r, w', i, rows. auto 10.
Qed.

Lemma Migrate_partial_progress_witness :
  exists r w' i,
    Migrate Sample.manager [Sample.m1; Sample.m2; Sample.m3] Cases.second_body_fails
    = (Ret r, w') /\
    stdout w' = map applied_line (take i [Sample.m1; Sample.m2; Sample.m3]).
Proof.
  destruct (Migrate_partial_progress Sample.manager [Sample.m1; Sample.m2; Sample.m3]
                                     Cases.second_body_fails)
    as (r & w' & i & rows & E & _ & _ & _ & O & _); [vm_compute; eauto|].
  exists r, w', i. split; [exact E | exact O].
Defined.

(** X14. [Migrate] reads the applied versions once, before its loop, so a
    version that is pending twice in the input is attempted twice and the
    second attempt is refused by the ledger: [Migrate] returns no error only
    if the versions of the pending migrations are pairwise distinct. *)
Theorem Migrate_success_needs_distinct_versions
        (m : MigrationManager) (migrations : list Migration) (w w' : World) :
  is_Some (pool (client m)) ->
  Migrate m migrations w = (Ret None, w') ->
  NoDup (map Version (pending_of (committed w) migrations)).
Proof.
  intros Hc H.
  destruct (Migrate_progress m Hc migrations w)
    as (r & w2 & i & rows & E & _ & Hn & _ & _ & _ & _ & _ & _ & N).
  rewrite H in E. injection E as <- <-.
  rewrite (Hn eq_refl), firstn_all in N. exact N.
Qed.

Lemma Migrate_success_needs_distinct_versions_witness :
  NoDup (map Version (pending_of (committed Sample.fresh) [Sample.m1; Sample.m2])).
Proof.
  apply (Migrate_success_needs_distinct_versions
           Sample.manager [Sample.m1; Sample.m2] Sample.fresh Sample.two_applied).
  - vm_compute. eauto.
  - vm_compute. reflexivity.
Defined.

(** ** More on rolling back *)

(** The row a descending query puts first is a row of the ledger with the
    highest version. *)
Lemma last_sorted_is_highest (l : list Row) (row : Row) :
  last (merge_sort by_version l) = Some row ->
  In row l /\ forall r', In r' l -> row_version r' <= row_version row.
Proof.
  intros L.
  pose proof (merge_sort_Permutation by_version l) as P.
  pose proof (StronglySorted_merge_sort by_version l) as S.
  apply last_Some in L as [front E]. rewrite E in P, S.
  split.
  - eapply Permutation_in; [exact P|]. apply in_or_app. right. now left.
  - intros r' Hin.
    assert (In r' (front ++ [row])) as Hin'
        by (eapply Permutation_in; [symmetry; exact P | exact Hin]).
    apply in_app_or in Hin' as [Hf|[<-|[]]]; [|lia].
    apply (StronglySorted_app_1_elem_of by_version front [row] r' row S).
    + now apply list_elem_of_In.
    + apply list_elem_of_In. now left.
Qed.

(** The transaction of [RollbackLastMigration], for the version [lastVersion]
    and its rollback SQL. *)
Lemma rollback_transaction_outcome
      (c : Client) (rollbackSQL : string) (lastVersion : Z) (w : World) :
  is_Some (pool c) ->
  exists r w',
    ExecTx c (fun tx =>
      let* err := lift (Driver.tx_Exec (Raw rollbackSQL [])) in
      match err with
      | Some e =>
          ret (Some (Errorf_w ("error applying rollback "
                               +:+ fmt_d lastVersion +:+ ": ") e))
      | None =>
          let* err := lift (Driver.tx_Exec (DeleteMigration lastVersion)) in
          match err with
          | Some e =>
              ret (Some (Errorf_w ("error deleting migration record "
                                   +:+ fmt_d lastVersion +:+ ": ") e))
          | None => ret None
          end
      end) w = (Ret r, w') /\
    stdout w' = stdout w /\
    match r with
    | None =>
        exists l,
          ledger (committed w) = Some l /\
          committed w'
          = mkStore (Some (filter (fun r => row_version r ≠ lastVersion) l))
                    (schema (committed w) ++ [(rollbackSQL, [])])
    | Some _ => committed w' = committed w
    end.
Proof.
  intros [p Hp].
  unfold ExecTx, bind, on_pool, lift, ret. rewrite Hp.
  unfold Driver.pool_Begin, Driver.tx_Exec, Driver.tx_Commit, Driver.tx_Rollback,
    acquire, draw, log, set_pending, set_faults, set_committed.
  destruct w as [[led sch] pd fs cl ck tr out].
  crunch;
    (eexists _, _; split; [reflexivity|]; simpl; split; [reflexivity|];
     first [ reflexivity | eexists; split; reflexivity ]).
Qed.

Lemma RollbackLastMigration_outcome
      (m : MigrationManager) (rollbacks : gmap Z string) (w : World) :
  is_Some (pool (client m)) ->
  exists r w',
    RollbackLastMigration m rollbacks w = (Ret r, w') /\
    stdout w' = stdout w /\
    match r with
    | None =>
        exists l row sql,
          ledger (committed w) = Some l /\
          last (merge_sort by_version l) = Some row /\
          rollbacks !! row_version row = Some sql /\
          committed w'
          = mkStore (Some (filter (fun r => row_version r ≠ row_version row) l))
                    (schema (committed w) ++ [(sql, [])])
    | Some _ => committed w' = committed w
    end.
Proof.
  intros Hc. pose proof Hc as [p Hp].
  unfold RollbackLastMigration, QueryRow. unfold bind at 1. unfold on_pool, lift. rewrite Hp.
  unfold Driver.pool_QueryRow. rewrite acquire_log.
  pose proof (acquire_frame w) as (Ca & Pa & Ta & Cla).
  assert (stdout (snd (acquire w)) = stdout w) as Oa.
  { unfold acquire. destruct (closed w); [reflexivity|].
    destruct (draw_outcome w) as (r1 & w1 & E & _ & _ & _ & _ & O). now rewrite E. }
  destruct (acquire w) as [[e|] w1]; simpl in Ca, Pa, Ta, Cla, Oa; cbn [fst snd].
  { eexists _, _. split; [reflexivity|]. simpl. auto. }
  change (committed (log (EvQueryRow SelectLast) w1)) with (committed w1).
  unfold run_query. rewrite Ca.
  destruct (ledger (committed w)) as [l|] eqn:L.
  2:{ eexists _, _. split; [reflexivity|]. simpl. auto. }
  destruct (last (merge_sort by_version l)) as [row|] eqn:La; cbn [head Driver.Scan].
  2:{ eexists _, _. split; [reflexivity|]. simpl. auto. }
  destruct (rollbacks !! row_version row) as [sql|] eqn:R.
  2:{ eexists _, _. split; [reflexivity|]. simpl. auto. }
  destruct (rollback_transaction_outcome (client m) sql (row_version row)
              (log (EvQueryRow SelectLast) w1) Hc) as (r & w' & E & O & Cm).
  exists r, w'. split; [exact E|].
  change (stdout (log (EvQueryRow SelectLast) w1)) with (stdout w1) in O.
  change (committed (log (EvQueryRow SelectLast) w1)) with (committed w1) in Cm.
  rewrite Ca in Cm. split; [congruence|].
  destruct r as [e|]; [exact Cm|].
  destruct Cm as (l' & L' & C'). rewrite L in L'. injection L' as <-.
  exists l, row, sql. auto.
Qed.

(** X15. [RollbackLastMigration] is all or nothing and takes one step.
    When it returns no error, there was a row with the highest version in the
    ledger, the mapping had SQL for that version, and the store is the old
    one without the rows of that version and with that SQL as the last
    statement of the schema; the rows of every other version are kept.
    When it returns an error (failed lookup, no mapping, failed SQL, failed
    delete, failed commit), the committed store is exactly as before. *)
Theorem RollbackLastMigration_all_or_nothing
        (m : MigrationManager) (rollbacks : gmap Z string) (w : World) :
  is_Some (pool (client m)) ->
  exists r w',
    RollbackLastMigration m rollbacks w = (Ret r, w') /\
    match r with
    | None =>
        exists l row sql,
          ledger (committed w) = Some l /\ In row l /\
          (forall r', In r' l -> row_version r' <= row_version row) /\
          rollbacks !! row_version row = Some sql /\
          ledger (committed w')
          = Some (filter (fun r => row_version r ≠ row_version row) l) /\
          schema (committed w') = schema (committed w) ++ [(sql, [])] /\
          (forall r', In r' l -> row_version r' <> row_version row ->
                      In r' (default [] (ledger (committed w'))))
    | Some _ => committed w' = committed w
    end.
Proof.
  intros Hc.
  destruct (RollbackLastMigration_outcome m rollbacks w Hc) as (r & w' & E & _ & R).
  exists r, w'. split; [exact E|].
  destruct r as [e|]; [exact R|].
  destruct R as (l & row & sql & L & La & Hs & C).
  destruct (last_sorted_is_highest l row La) as (Hin & Hmax).
  exists l, row, sql. rewrite C. simpl.
  split; [exact L|]. split; [exact Hin|]. split; [exact Hmax|]. split; [exact Hs|].
  split; [reflexivity|]. split; [reflexivity|].
  intros r' Hr Hne. apply list_elem_of_In, list_elem_of_filter.
  split; [exact Hne | now apply list_elem_of_In].
Qed.

Lemma RollbackLastMigration_all_or_nothing_witness :
  ledger (committed (snd (RollbackLastMigration Sample.manager {[ 3 := "DROP TABLE posts" ]}
                                                Sample.three_applied)))
  = Some [Sample.r1; Sample.r2].
Proof.
  destruct (RollbackLastMigration_all_or_nothing
              Sample.manager {[ 3 := "DROP TABLE posts" ]} Sample.three_applied)
    as (r & w' & E & R); [vm_compute; eauto|].
  rewrite E. vm_compute in E. injection E as <- <-. reflexivity.
Defined.

Lemma filter_other_versions (l : list Row) (row : Row) (v : Z) :
  row_version row = v -> ~ In v (versions l) ->
  filter (fun r => row_version r ≠ v) (l ++ [row]) = l.
Proof.
  intros Hv. induction l as [|r l IH]; intros Hn; simpl.
  - rewrite filter_cons, filter_nil. destruct (decide (row_version row ≠ v)); congruence.
  - rewrite filter_cons. destruct (decide (row_version r ≠ v)) as [Hne|Heq].
    + f_equal. apply IH. intros Hin. apply Hn. now right.
    + exfalso. apply Hn. left. destruct (decide (row_version r = v)); [assumption|tauto].
Qed.

(** X16. Applying a migration whose version is above every version in the
    ledger and then rolling back the last migration, both without error,
    brings the ledger back to what it was; the schema has gained the body
    and then the rollback SQL registered for that version. *)
Theorem apply_then_rollback_restores_ledger
        (m : MigrationManager) (mig : Migration) (rollbacks : gmap Z string)
        (w w1 w2 : World) (plan : list (option error)) :
  is_Some (pool (client m)) ->
  (forall v, In v (ledger_versions (committed w)) -> v < Version mig) ->
  ApplyMigration m mig w = (Ret None, w1) ->
  RollbackLastMigration m rollbacks (set_faults plan w1) = (Ret None, w2) ->
  ledger (committed w2) = ledger (committed w) /\
  exists sql,
    rollbacks !! Version mig = Some sql /\
    schema (committed w2) = schema (committed w) ++ [(SQL mig, []); (sql, [])].
Proof.
  intros Hc Hlt Ha Hr.
  destruct (ApplyMigration_spec m Hc mig w) as (r & w' & evs & E & _ & _ & R).
  rewrite Ha in E. injection E as <- <-.
  destruct R as (_ & _ & l & t & L & H & C).
  destruct (RollbackLastMigration_outcome m rollbacks (set_faults plan w1) Hc)
    as (r & w' & E & _ & R).
  rewrite Hr in E. injection E as <- <-.
  destruct R as (l2 & row & sql & L2 & La & Hs & C2).
  change (committed (set_faults plan w1)) with (committed w1) in *.
  rewrite C in L2, C2. simpl in L2, C2. injection L2 as <-.
  assert (~ In (Version mig) (versions l)) as Hfresh.
  { rewrite <- has_version_In, H. discriminate. }
  assert (row_version row = Version mig) as Hv.
  { destruct (last_sorted_is_highest _ _ La) as (Hin & Hmax).
    apply Z.le_antisymm.
    - apply in_app_or in Hin as [Hin|[<-|[]]]; [|simpl; lia].
      assert (row_version row < Version mig); [|lia].
      apply Hlt. unfold ledger_versions, versions. rewrite L. now apply in_map.
    - apply (Hmax (mkRow (Version mig) (Description mig) t)).
      apply in_or_app. right. now left. }
  rewrite Hv in *. rewrite C2. simpl.
  split.
  - rewrite L. f_equal. now apply filter_other_versions.
  - exists sql. split; [exact Hs|]. now rewrite <- app_assoc.
Qed.

Lemma apply_then_rollback_restores_ledger_witness :
  ledger (committed (snd (RollbackLastMigration
                            Sample.manager {[ 4 := "DROP INDEX" ]}
                            (snd (ApplyMigration Sample.manager Sample.m4
                                                 Sample.three_applied)))))
  = ledger (committed Sample.three_applied).
Proof.
  destruct (apply_then_rollback_restores_ledger
              Sample.manager Sample.m4 {[ 4 := "DROP INDEX" ]}
              Sample.three_applied
              (snd (ApplyMigration Sample.manager Sample.m4 Sample.three_applied))
              (snd (RollbackLastMigration
                      Sample.manager {[ 4 := "DROP INDEX" ]}
                      (snd (ApplyMigration Sample.manager Sample.m4 Sample.three_applied))))
              []) as (L & _).
  - vm_compute. eauto.
  - intros v Hv. vm_compute in Hv.
    destruct Hv as [<-|[<-|[<-|[]]]]; reflexivity.
  - vm_compute. reflexivity.
  - vm_compute. reflexivity.
  - exact L.
Defined.

(** ** More on loading migrations *)

Section LoadMore.

Variable fs : Files.FS.
Variable migrationsPath : string.

(** The loop over a readable prefix of the listing. *)
Lemma load_entries_app (before : list Files.DirEntry) :
  forall (rest : list Files.DirEntry) (migrations : list Migration) (w : World),
    readable fs migrationsPath before ->
    exists loaded w1,
      load_entries fs migrationsPath (before ++ rest) migrations w
      = load_entries fs migrationsPath rest (migrations ++ loaded) w1 /\
      map facts loaded = omap (expected fs migrationsPath) before.
Proof.
  induction before as [|entry before IH]; intros rest migrations w Hread.
  - exists [], w. simpl. rewrite app_nil_r. auto.
  - assert (readable fs migrationsPath before) as Hbefore.
    { intros e v He. apply Hread. now apply list_elem_of_further. }
    assert (recognised entry = None ->
            exists loaded w1,
              load_entries fs migrationsPath (before ++ rest) migrations w
              = load_entries fs migrationsPath rest (migrations ++ loaded) w1 /\
              map facts loaded = omap (expected fs migrationsPath) (entry :: before)) as Hskip.
    { intros Hn. destruct (IH rest migrations w Hbefore) as (loaded & w1 & E & F).
      exists loaded, w1. split; [exact E|].
      simpl. unfold expected at 1. now rewrite Hn. }
    simpl. unfold recognised, version_of_name in Hskip.
    destruct (Files.IsDir entry) eqn:D; simpl; [now apply Hskip|].
    destruct (Strings.HasSuffix (Files.Name entry) ".sql") eqn:S; simpl; [|now apply Hskip].
    destruct (Strings.SplitN2 (Files.Name entry)) as [|token [|rem [|x xs]]] eqn:Sp;
      try (now apply Hskip).
    destruct (Strings.Atoi token) as [version|] eqn:A; [|now apply Hskip].
    destruct (Hread entry version) as [content Hc].
    { apply list_elem_of_here. }
    { unfold recognised, version_of_name. now rewrite D, S, Sp. }
    rewrite Hc. unfold bind, lift. simpl.
    match goal with
    | |- context [load_entries _ _ (before ++ rest) ?acc ?w0] =>
        destruct (IH rest acc w0 Hbefore) as (loaded & w1 & E & F)
    end.
    exists (mkMigration version (Strings.TrimSuffix (Files.Name entry) ".sql")
                         content (clock w) :: loaded), w1.
    split.
    + rewrite E. rewrite <- app_assoc. reflexivity.
    + simpl. unfold expected at 1, recognised, version_of_name.
      rewrite D, S, Sp, A, Hc. simpl. now rewrite F.
Qed.

Lemma load_entries_unreadable
      (entry : Files.DirEntry) (rest : list Files.DirEntry)
      (migrations : list Migration) (w : World) (version : Z) (err : error) :
  recognised entry = Some version ->
  Files.ReadFile fs (Files.Join migrationsPath (Files.Name entry)) = inl err ->
  load_entries fs migrationsPath (entry :: rest) migrations w
  = (Ret ([], Some (Errorf_w ("error reading migration file "
                              +:+ Files.Name entry +:+ ": ") err)), w).
Proof.
  unfold recognised, version_of_name. intros Hr Hf. simpl.
  destruct (Files.IsDir entry); [discriminate|].
  destruct (Strings.HasSuffix (Files.Name entry) ".sql"); [|discriminate]. simpl.
  destruct (Strings.SplitN2 (Files.Name entry)) as [|token [|rem [|x xs]]];
    try discriminate.
  rewrite Hr, Hf. reflexivity.
Qed.

(** The versions expected from a readable listing are those recognised. *)
Lemma expected_versions (entries : list Files.DirEntry) :
  readable fs migrationsPath entries ->
  map fact_version (omap (expected fs migrationsPath) entries) = omap recognised entries.
Proof.
  induction entries as [|entry entries IH]; intros Hread; [reflexivity|].
  assert (readable fs migrationsPath entries) as Hrest.
  { intros e v He. apply Hread. now apply list_elem_of_further. }
  simpl. unfold expected at 1.
  destruct (recognised entry) as [version|] eqn:R; [|now apply IH].
  destruct (Hread entry version (list_elem_of_here _ _) R) as [content ->].
  simpl. f_equal. apply IH, Hrest.
Qed.

End LoadMore.

(** X17. A failed read is fatal to the whole load.  When the directory
    cannot be listed, [LoadMigrationsFromPath] returns no migration and
    "error reading migrations directory: " around the cause.  When the file
    of a recognised entry cannot be read (the recognised entries before it
    could), it returns no migration and "error reading migration file
    <name>: " around the cause, whatever follows in the listing. *)
Theorem LoadMigrationsFromPath_read_failures
        (fs : Files.FS) (migrationsPath : string) (w : World) :
  (forall err,
     Files.ReadDir fs migrationsPath = inl err ->
     LoadMigrationsFromPath fs migrationsPath w
     = (Ret ([], Some (Errorf_w "error reading migrations directory: " err)), w)) /\
  (forall before entry rest version err,
     Files.ReadDir fs migrationsPath = inr (before ++ entry :: rest) ->
     readable fs migrationsPath before ->
     recognised entry = Some version ->
     Files.ReadFile fs (Files.Join migrationsPath (Files.Name entry)) = inl err ->
     exists w',
       LoadMigrationsFromPath fs migrationsPath w
       = (Ret ([], Some (Errorf_w ("error reading migration file "
                                   +:+ Files.Name entry +:+ ": ") err)), w')).
Proof.
  split.
  - intros err Hd. unfold LoadMigrationsFromPath. now rewrite Hd.
  - intros before entry rest version err Hd Hread Hr Hf.
    unfold LoadMigrationsFromPath. rewrite Hd.
    destruct (load_entries_app fs migrationsPath before (entry :: rest) [] w Hread)
      as (loaded & w1 & E & _).
    unfold bind. rewrite E.
    rewrite (load_entries_unreadable fs migrationsPath entry rest _ w1 version err Hr Hf).
    exists w1. reflexivity.
Qed.

Lemma LoadMigrationsFromPath_read_failures_witness :
  fst (LoadMigrationsFromPath Cases.unreadable_fs "migrations" Sample.fresh)
  = Ret ([], Some (Wrap "error reading migration file 002_add_status.sql: permission denied"
                        (New "permission denied"))).
Proof.
  destruct (LoadMigrationsFromPath_read_failures
              Cases.unreadable_fs "migrations" Sample.fresh) as [_ H].
  destruct (H [Files.mkEntry "001_create_users.sql" false]
              (Files.mkEntry "002_add_status.sql" false)
              [Files.mkEntry "abc_bad.sql" false] 2 (New "permission denied"))
    as (w' & E).
  - reflexivity.
  - intros entry version He _. apply list_elem_of_singleton in He. subst.
    eexists. reflexivity.
  - reflexivity.
  - reflexivity.
  - rewrite E. reflexivity.
Defined.

Lemma sorted_le_NoDup_lt (l : list Z) :
  StronglySorted Z.le l -> NoDup l -> StronglySorted Z.lt l.
Proof.
  induction 1 as [|a l S IH F]; intros N; [constructor|].
  apply NoDup_cons in N as [Hnot N].
  constructor; [auto|].
  rewrite List.Forall_forall in *. intros x Hx.
  specialize (F x Hx). assert (a <> x); [|lia].
  intros ->. apply Hnot. now apply list_elem_of_In.
Qed.

Lemma map_fact_version (migrations : list Migration) :
  map fact_version (map facts migrations) = map Version migrations.
Proof. rewrite map_map. reflexivity. Qed.

(** X18. With pairwise distinct recognised versions in the directory, the
    sequence [LoadMigrationsFromPath] returns is in strictly ascending
    order of version, and [Migrate] given that sequence runs the pending
    migrations in strictly ascending order of version, on any server. *)
Theorem load_then_Migrate_ascending
        (fs : Files.FS) (migrationsPath : string)
        (entries : list Files.DirEntry) (w : World) :
  Files.ReadDir fs migrationsPath = inr entries ->
  readable fs migrationsPath entries ->
  NoDup (omap recognised entries) ->
  exists migrations w',
    LoadMigrationsFromPath fs migrationsPath w = (Ret (migrations, None), w') /\
    map Version migrations ≡ₚ omap recognised entries /\
    StronglySorted Z.lt (map Version migrations) /\
    forall (m : MigrationManager) (ws : World),
      is_Some (pool (client m)) ->
      exists r ws' k,
        Migrate m migrations ws = (Ret r, ws') /\
        executed_bodies (trace ws')
        = executed_bodies (trace ws)
          ++ map SQL (take k (pending_of (committed ws) migrations)) /\
        (r = None -> k = length (pending_of (committed ws) migrations)) /\
        StronglySorted Z.lt (map Version (take k (pending_of (committed ws) migrations))).
Proof.
  intros Hd Hread Hnd.
  destruct (LoadMigrationsFromPath_loads fs migrationsPath entries w Hd Hread)
    as (migrations & w' & E & P & S & _).
  assert (map Version migrations ≡ₚ omap recognised entries) as PV.
  { rewrite <- (expected_versions fs migrationsPath entries Hread) by exact Hread.
    rewrite <- (map_fact_version migrations). now apply Permutation_map. }
  assert (StronglySorted Z.lt (map Version migrations)) as SL.
  { apply sorted_le_NoDup_lt; [exact S|]. rewrite PV. exact Hnd. }
  exists migrations, w'. split; [exact E|]. split; [exact PV|]. split; [exact SL|].
  intros m ws Hc.
  destruct (Migrate_spec m migrations ws Hc) as (r & ws' & k & j & Em & _ & B & _ & _ & _ & N).
  exists r, ws', k. split; [exact Em|]. split; [exact B|].
  split; [intros Hr; destruct (N Hr) as (? & _); assumption|].
  unfold pending_of. apply StronglySorted_map_take, StronglySorted_map_filter, SL.
Qed.

Lemma load_then_Migrate_ascending_witness :
  exists migrations w',
    LoadMigrationsFromPath Sample.scenario_fs "migrations" Sample.fresh
    = (Ret (migrations, None), w') /\
    StronglySorted Z.lt (map Version migrations).
Proof.
  destruct (load_then_Migrate_ascending
              Sample.scenario_fs "migrations" Sample.scenario_entries Sample.fresh)
    as (migrations & w' & E & _ & S & _).
  - reflexivity.
  - intros entry version _ _. eexists. reflexivity.
  - refine (bool_decide_unpack _ _). vm_compute. exact I.
  - exists migrations, w'. split; [exact E | exact S].
Defined.

Lemma StronglySorted_of_map {A} (R : relation Z) (f : A -> Z) (l : list A) :
  StronglySorted R (map f l) -> StronglySorted (fun x y => R (f x) (f y)) l.
Proof.
  induction l as [|a l IH]; simpl; intros S; [constructor|].
  apply StronglySorted_inv in S as [S F]. constructor; [auto|].
  rewrite List.Forall_forall in *. intros x Hx. apply F. now apply in_map.
Qed.

(** X19. The order in which the directory is listed does not matter: two
    listings with the same entries and pairwise distinct recognised
    versions, over the same files, load the same migrations (versions,
    descriptions and bodies) in the same order. *)
Theorem LoadMigrationsFromPath_listing_order
        (fs fs' : Files.FS) (migrationsPath : string)
        (entries entries' : list Files.DirEntry) (w w0 : World) :
  Files.ReadDir fs migrationsPath = inr entries ->
  Files.ReadDir fs' migrationsPath = inr entries' ->
  (forall path, Files.ReadFile fs' path = Files.ReadFile fs path) ->
  entries ≡ₚ entries' ->
  readable fs migrationsPath entries ->
  NoDup (omap recognised entries) ->
  exists migrations migrations' w1 w2,
    LoadMigrationsFromPath fs migrationsPath w = (Ret (migrations, None), w1) /\
    LoadMigrationsFromPath fs' migrationsPath w0 = (Ret (migrations', None), w2) /\
    map facts migrations' = map facts migrations.
Proof.
  intros Hd Hd' Hf Hp Hread Hnd.
  assert (readable fs' migrationsPath entries') as Hread'.
  { intros entry version He Hr. rewrite Hf. apply (Hread entry version); [|exact Hr].
    now rewrite Hp. }
  assert (NoDup (omap recognised entries')) as Hnd' by now rewrite <- Hp.
  destruct (LoadMigrationsFromPath_loads fs migrationsPath entries w Hd Hread)
    as (ms & w1 & E & P & S & _).
  destruct (LoadMigrationsFromPath_loads fs' migrationsPath entries' w0 Hd' Hread')
    as (ms' & w2 & E' & P' & S' & _).
  exists ms, ms', w1, w2. split; [exact E|]. split; [exact E'|].
  assert (forall fsx es xs,
             readable fsx migrationsPath es -> NoDup (omap recognised es) ->
             map facts xs ≡ₚ omap (expected fsx migrationsPath) es ->
             StronglySorted Z.le (map Version xs) ->
             StronglySorted (fun x y => fact_version x < fact_version y) (map facts xs)) as Strict.
  { intros fsx es xs Hr Hn Hperm Hs. apply StronglySorted_of_map.
    rewrite map_fact_version. apply sorted_le_NoDup_lt; [exact Hs|].
    rewrite <- map_fact_version, Hperm, (expected_versions fsx migrationsPath es Hr).
    exact Hn. }
  apply (StronglySorted_unique_strong (fun x y => fact_version x < fact_version y)).
  - intros x1 x2 _ _ H1 H2. lia.
  - now apply (Strict fs' entries').
  - now apply (Strict fs entries).
  - rewrite P, P'. rewrite <- Hp. apply Permutation_refl'.
    apply list_omap_ext, Forall2_same_length_lookup. split; [reflexivity|].
    intros i x y Hx Hy. rewrite Hx in Hy. injection Hy as <-.
    unfold expected. now rewrite Hf.
Qed.

Lemma LoadMigrationsFromPath_listing_order_witness :
  map facts (fst_migrations
               (LoadMigrationsFromPath Cases.shuffled_fs "migrations" Sample.fresh))
  = map facts (fst_migrations
                 (LoadMigrationsFromPath Sample.scenario_fs "migrations" Sample.fresh)).
Proof.
  destruct (LoadMigrationsFromPath_listing_order
              Sample.scenario_fs Cases.shuffled_fs "migrations"
              Sample.scenario_entries
              [Files.mkEntry "abc_bad.sql" false;
               Files.mkEntry "002_add_status.sql" false;
               Files.mkEntry "001_create_users.sql" false]
              Sample.fresh Sample.fresh)
    as (ms & ms' & w1 & w2 & E & E' & F).
  - reflexivity.
  - reflexivity.
  - reflexivity.
  - etransitivity; [apply Permutation_swap|].
    etransitivity; [apply perm_skip, Permutation_swap|]. apply Permutation_swap.
  - intros entry version _ _. eexists. reflexivity.
  - refine (bool_decide_unpack _ _). vm_compute. exact I.
  - rewrite E, E'. exact F.
Defined.

(** X20. Every migration [LoadMigrationsFromPath] returns comes from a file
    of the directory: an entry that is not a directory, whose name is the
    description followed by ".sql", whose leading token gives the version
    and whose content is the body.  Every recognised entry gives such a
    migration. *)
Theorem loaded_migrations_come_from_files
        (fs : Files.FS) (migrationsPath : string)
        (entries : list Files.DirEntry) (w w' : World) (migrations : list Migration) :
  Files.ReadDir fs migrationsPath = inr entries ->
  readable fs migrationsPath entries ->
  LoadMigrationsFromPath fs migrationsPath w = (Ret (migrations, None), w') ->
  (forall mig, In mig migrations ->
     exists entry,
       In entry entries /\ Files.IsDir entry = false /\
       Files.Name entry = Description mig +:+ ".sql" /\
       recognised entry = Some (Version mig) /\
       Files.ReadFile fs (Files.Join migrationsPath (Files.Name entry)) = inr (SQL mig)) /\
  (forall entry version,
     In entry entries -> recognised entry = Some version ->
     exists mig,
       In mig migrations /\ Version mig = version /\
       Files.Name entry = Description mig +:+ ".sql") /\
  length migrations = length (omap recognised entries).
Proof.
  intros Hd Hread H.
  destruct (LoadMigrationsFromPath_loads fs migrationsPath entries w Hd Hread)
    as (ms & w2 & E & P & _ & _).
  rewrite H in E. injection E as <- <-.
  assert (forall entry version,
             recognised entry = Some version ->
             Files.Name entry
             = Strings.TrimSuffix (Files.Name entry) ".sql" +:+ ".sql") as Hname.
  { intros entry version Hr. apply recognised_spec in Hr as (_ & [stem Hs] & _).
    rewrite Hs at 2. now rewrite StringFacts.TrimSuffix_app. }
  split; [|split].
  - intros mig Hin.
    assert (facts mig ∈ omap (expected fs migrationsPath) entries) as Hf.
    { rewrite <- P. apply list_elem_of_In. now apply in_map. }
    apply list_elem_of_omap in Hf as (entry & He & Hx).
    unfold expected in Hx.
    destruct (recognised entry) as [version|] eqn:R; [|discriminate].
    destruct (Files.ReadFile fs _) as [err|content] eqn:F; [discriminate|].
    injection Hx as Hv Hdesc Hsql. exists entry.
    split; [now apply list_elem_of_In|].
    split; [apply recognised_spec in R; tauto|].
    split; [rewrite <- Hdesc; now apply (Hname entry version)|].
    split; congruence.
  - intros entry version Hin Hr.
    destruct (Hread entry version (proj2 (list_elem_of_In _ _) Hin) Hr) as [content Hc].
    assert ((version, Strings.TrimSuffix (Files.Name entry) ".sql", content)
            ∈ map facts migrations) as Hf.
    { rewrite P. apply list_elem_of_omap. exists entry.
      split; [now apply list_elem_of_In|]. unfold expected. now rewrite Hr, Hc. }
    apply list_elem_of_In, in_map_iff in Hf as (mig & Hx & Hm).
    injection Hx as Hv Hdesc Hsql. exists mig.
    split; [exact Hm|]. split; [exact Hv|].
    rewrite Hdesc. now apply (Hname entry version).
  - rewrite <- (expected_versions fs migrationsPath entries Hread), <- P.
    now rewrite !length_map.
Qed.

Lemma loaded_migrations_come_from_files_witness :
  exists entry,
    In entry Sample.scenario_entries /\
    Files.Name entry = "002_add_status" +:+ ".sql".
Proof.
  destruct (loaded_migrations_come_from_files
              Sample.scenario_fs "migrations" Sample.scenario_entries Sample.fresh
              (snd (LoadMigrationsFromPath Sample.scenario_fs "migrations" Sample.fresh))
              (fst_migrations
                 (LoadMigrationsFromPath Sample.scenario_fs "migrations" Sample.fresh)))
    as (H & _).
  - reflexivity.
  - intros entry version _ _. eexists. reflexivity.
  - vm_compute. reflexivity.
  - destruct (H (mkMigration 2 "002_add_status" "-- migrations/002_add_status.sql" 1))
      as (entry & Hin & _ & Hn & _).
    + vm_compute. right. left. reflexivity.
    + exists entry. split; [exact Hin | exact Hn].
Defined.

(** ** Overflow in [parseInt], and the arguments of a batch *)

Lemma parseInt_error_iff_witness :
  Env.getEnvInt {[ "DB_PORT" := "54a2" ]} "DB_PORT" 5432 = 5432.
Proof.
  destruct (parseInt_error_iff "54a2") as (_ & H & _).
  apply H. right. exists "54", "a"%char, "2". split; [reflexivity | vm_compute; reflexivity].
Defined.

Lemma wrap64_shift (a : Z) : exists k, wrap64 a = a + k * 2 ^ 64.
Proof.
  exists (- ((a + 2 ^ 63) / 2 ^ 64)). unfold wrap64.
  rewrite Z.mod_eq by lia. lia.
Qed.

Lemma wrap64_step (a d : Z) : wrap64 (wrap64 a * 10 + d) = wrap64 (a * 10 + d).
Proof.
  destruct (wrap64_shift a) as [k ->]. unfold wrap64.
  replace ((a + k * 2 ^ 64) * 10 + d + 2 ^ 63)
    with (a * 10 + d + 2 ^ 63 + (10 * k) * 2 ^ 64) by lia.
  now rewrite Z.mod_add by lia.
Qed.

Lemma parseInt_loop_wraps (s : string) :
  forall acc n,
    Strings.digits s acc = Some n ->
    Env.parseInt_loop s (wrap64 acc) = Some (wrap64 n).
Proof.
  induction s as [|c s IH]; intros acc n; simpl.
  - intros [= <-]. reflexivity.
  - destruct (Strings.is_digit c) eqn:D; [|discriminate].
    unfold Strings.is_digit in D. apply andb_true_iff in D as [D1 D2].
    apply Z.leb_le in D1. apply Z.leb_le in D2.
    intros H. change (Env.rune_of "0") with 48. unfold Env.rune_of.
    destruct (Z.ltb_spec 9 (Z.of_N (N_of_ascii c) - 48)); [lia|].
    rewrite wrap64_step. now apply IH.
Qed.

(** X21. [parseInt] has no range check: on every string of decimal digits,
    however long, it returns no error and the value of the digits wrapped
    around to 64 bits, where [strconv.Atoi] would report a range error; so
    a value beyond the range of [int] in the environment is not replaced
    by the fallback. *)
Theorem parseInt_wraps_around (s : string) (n : Z) :
  Strings.digits s 0 = Some n ->
  Env.parseInt s = (wrap64 n, None) /\
  (max_int < n -> s <> EmptyString -> Strings.Atoi s = None) /\
  forall env key fallback,
    env !! key = Some s -> Env.getEnvInt env key fallback = wrap64 n.
Proof.
  intros Hd.
  assert (Env.parseInt s = (wrap64 n, None)) as P.
  { unfold Env.parseInt. change 0 with (wrap64 0) at 1.
    now rewrite (parseInt_loop_wraps s 0 n Hd). }
  split; [exact P|]. split.
  - intros Hn Hs. destruct (Strings.Atoi s) as [v|] eqn:A; [|reflexivity].
    apply StringFacts.Atoi_Some in A
        as (body & k & Hb & Hk & [Hlo Hhi] & [[-> ->]|[[-> _]|[-> _]]]).
    + rewrite Hd in Hk. injection Hk as <-. lia.
    + discriminate Hd.
    + discriminate Hd.
  - intros env key fallback He. unfold Env.getEnvInt. now rewrite He, P.
Qed.

Lemma parseInt_wraps_around_witness :
  Env.parseInt "9223372036854775808" = (min_int, None) /\
  Strings.Atoi "9223372036854775808" = None.
Proof.
  destruct (parseInt_wraps_around "9223372036854775808" 9223372036854775808)
    as (P & A & _); [reflexivity|].
  split; [exact P|]. apply A; [vm_compute; reflexivity | discriminate].
Defined.

Lemma queue_args_prefix (queries : list string) :
  forall (args args' : list (list Value)) (i0 : nat),
    (forall i, (i < i0 + length queries)%nat -> args !! i = args' !! i) ->
    queue i0 queries args = queue i0 queries args'.
Proof.
  induction queries as [|q queries IH]; intros args args' i0 H; simpl; [reflexivity|].
  rewrite (H i0) by (simpl; lia). f_equal.
  apply IH. intros i Hi. apply H. simpl. lia.
Qed.

(** X22. [ExecBatch] looks at the argument lists by position and only as far
    as there are statements: two calls whose argument lists agree on the
    first [len(queries)] positions do the same, so surplus argument lists
    are ignored, and with no argument list at all every statement is
    queued without arguments. *)
Theorem ExecBatch_arguments_by_position
        (c : Client) (queries : list string) (args args' : list (list Value)) (w : World) :
  (forall i, (i < length queries)%nat -> args !! i = args' !! i) ->
  ExecBatch c queries args w = ExecBatch c queries args' w /\
  (args = [] -> queue 0 queries args = map (fun query => Raw query []) queries).
Proof.
  intros H. split.
  - unfold ExecBatch. now rewrite (queue_args_prefix queries args args' 0 H).
  - intros ->. clear H. generalize 0%nat.
    induction queries as [|q queries IH]; intros i0; simpl.
    + reflexivity.
    + f_equal. apply IH.
Qed.

Lemma ExecBatch_arguments_by_position_witness :
  ExecBatch Sample.pg ["INSERT a"] [[VInt 1]; [VInt 2]] Sample.fresh
  = ExecBatch Sample.pg ["INSERT a"] [[VInt 1]] Sample.fresh.
Proof.
  apply (ExecBatch_arguments_by_position Sample.pg ["INSERT a"]
           [[VInt 1]; [VInt 2]] [[VInt 1]] Sample.fresh).
  intros [|i] Hi; [reflexivity | simpl in Hi; lia].
Defined.
